(** * ElementRotator: a shallow embedding of src/js/elementrotator.js

    The widget cycles through the element children of a container with
    fade transitions.  Its own code is a handful of methods
    ([_initCurrent], [_advanceCurrent], [_schedule], [_advance], [render])
    that call four capabilities of the host: the style primitives
    [Dom.getStyle]/[Dom.setStyle], the tween [Anim], the sub-cookie store
    [Cookie.getSub]/[Cookie.setSub] and the timer [setTimeout].

    The methods are embedded as functions on an explicit [world]: the widget
    instance, the container with its child nodes, the cookie jar, the host's
    queue of pending callbacks and a log of the calls made to the timer, the
    cookie store and the tween. *)

From Stdlib Require Import ZArith QArith Qround Qreduction Lia Lqa.
From stdpp Require Import base option list gmap strings.

Local Open Scope Z_scope.

(** ** JavaScript numbers

    A JavaScript Number is modelled as an exact rational or [NaN]; the
    rounding of doubles and the infinities are not modelled.  Every operation
    returns its rational in reduced form, so Leibniz equality on [number]
    is equality of values. *)
Module Js.

Inductive number : Type :=
| Num (q : Q)
| NaN.

Definition of_Z (z : Z) : number := Num (inject_Z z).
Definition of_nat (n : nat) : number := of_Z (Z.of_nat n).

(** Truncation toward zero. *)
Definition Qtrunc (q : Q) : Z := Z.quot (Qnum q) (Zpos (Qden q)).

Definition add (a b : number) : number :=
  match a, b with
  | Num x, Num y => Num (Qred (x + y))
  | _, _ => NaN
  end.

Definition sub (a b : number) : number :=
  match a, b with
  | Num x, Num y => Num (Qred (x - y))
  | _, _ => NaN
  end.

Definition mul (a b : number) : number :=
  match a, b with
  | Num x, Num y => Num (Qred (x * y))
  | _, _ => NaN
  end.

(** [a % b]: the remainder has the sign of the dividend; [x % 0] is [NaN]. *)
Definition rem (a b : number) : number :=
  match a, b with
  | Num x, Num y =>
      if Qeq_bool y 0 then NaN
      else Num (Qred (x - y * inject_Z (Qtrunc (x / y))))
  | _, _ => NaN
  end.

(** ToBoolean on a number: [0] and [NaN] are falsy. *)
Definition truthy (a : number) : bool :=
  match a with
  | Num q => negb (Qeq_bool q 0)
  | NaN => false
  end.

(** [a === b] on numbers; [NaN] equals nothing. *)
Definition strict_eq (a b : number) : bool :=
  match a, b with
  | Num x, Num y => Qeq_bool x y
  | _, _ => false
  end.

(** The array index a number denotes: a non-negative integer, or none. *)
Definition index_of (a : number) : option nat :=
  match a with
  | Num q =>
      let r := Qred q in
      if (Zpos (Qden r) =? 1) && (0 <=? Qnum r) then Some (Z.to_nat (Qnum r))
      else None
  | NaN => None
  end.

(** [arr[a]]: [undefined] (here [None]) outside the array. *)
Definition index {A : Type} (arr : list A) (a : number) : option A :=
  match index_of a with
  | Some i => arr !! i
  | None => None
  end.

(** Values of any type, as far as [===] between a widget instance and a
    number literal needs them. *)
Inductive value : Type :=
| VNumber (n : number)
| VObject (ref : nat).

Definition strict_neq_value (a b : value) : bool :=
  match a, b with
  | VNumber x, VNumber y => negb (strict_eq x y)
  | VObject r, VObject s => negb (Nat.eqb r s)
  | _, _ => true
  end.

End Js.

(** ** Styles, nodes and the container

    A style is the map from property names to the values [Dom.setStyle]
    wrote; a node is referred to by its position among the container's
    [childNodes], so that [_elements] and [childNodes] share the nodes. *)

Inductive cssval : Type :=
| CStr (s : string)
| CNum (n : Js.number).

Record node : Type := {
  nodeType : Z;
  node_style : gmap string cssval
}.

Record container : Type := {
  ctr_style : gmap string cssval;
  childNodes : list node
}.

Definition node_setStyle (prop : string) (v : cssval) (n : node) : node :=
  {| nodeType := nodeType n; node_style := <[prop := v]> (node_style n) |}.

(** [Dom.setStyle(el, prop, v)] for a child node reference; the primitive
    ignores an [undefined] element. *)
Definition Dom_setStyle (target : option nat) (prop : string) (v : cssval)
    (nodes : list node) : list node :=
  match target with
  | Some r => alter (node_setStyle prop v) r nodes
  | None => nodes
  end.

Definition css_truthy (v : option cssval) : bool :=
  match v with
  | Some (CStr s) => negb (String.eqb s "")
  | Some (CNum n) => Js.truthy n
  | None => false
  end.

Definition css_is (v : option cssval) (s : string) : bool :=
  match v with
  | Some (CStr s') => String.eqb s' s
  | _ => false
  end.

(** ** Configuration ([_CONFIG_DEFAULTS], [_COOKIES]) *)

Record config : Type := {
  show_duration : Q;
  fade_duration : Q;
  clock_sync : bool;
  cookie_persist : bool;
  cookie_name : string;
  cookie_settings : gmap string string
}.

Definition _CONFIG_DEFAULTS : config :=
  {| show_duration := 5;
     fade_duration := 1;
     clock_sync := false;
     cookie_persist := false;
     cookie_name := "elementrotator";
     cookie_settings := {[ "path" := "/" ]} |}.

Definition CURRENT : string := "current".

(** ** Tweens, callbacks and the host *)

(** [new Anim(el, { opacity: { to: v } }, duration)]. *)
Record Anim : Type := {
  anim_el : option nat;
  anim_attr : string;
  anim_to : Js.number;
  anim_duration : Q
}.

(** The two closures subscribed to [anim.onComplete] in [_advance]; each
    captures the local [current]. *)
Inductive handler : Type :=
| FadeUpComplete (current : option nat)
| FadeDownComplete (current : option nat).

(** A callback the host holds: the timer armed by [_schedule], or a running
    tween with the value it starts from and its completion handler. *)
Inductive task : Type :=
| Timeout (t : Js.number)
| Tween (anim : Anim) (from : option cssval) (onComplete : handler).

(** Calls to the timer, the cookie store and the tween, in the order made. *)
Inductive call : Type :=
| Call_setTimeout (t : Js.number)
| Call_getSub (name sub : string)
| Call_setSub (name sub : string) (v : Js.number) (settings : gmap string string)
| Call_animate (anim : Anim).

Record world : Type := {
  this_ref : nat;
  cfg : config;
  _elements : list nat;
  _current : Js.number;
  el : container;
  jar : gmap string (gmap string Js.number);
  pending : list task;
  calls : list call
}.

Definition set_elements (es : list nat) (w : world) : world :=
  {| this_ref := this_ref w; cfg := cfg w; _elements := es;
     _current := _current w; el := el w; jar := jar w;
     pending := pending w; calls := calls w |}.

Definition set_current (c : Js.number) (w : world) : world :=
  {| this_ref := this_ref w; cfg := cfg w; _elements := _elements w;
     _current := c; el := el w; jar := jar w;
     pending := pending w; calls := calls w |}.

Definition set_el (e : container) (w : world) : world :=
  {| this_ref := this_ref w; cfg := cfg w; _elements := _elements w;
     _current := _current w; el := e; jar := jar w;
     pending := pending w; calls := calls w |}.

Definition set_jar (j : gmap string (gmap string Js.number)) (w : world) : world :=
  {| this_ref := this_ref w; cfg := cfg w; _elements := _elements w;
     _current := _current w; el := el w; jar := j;
     pending := pending w; calls := calls w |}.

Definition set_pending (p : list task) (w : world) : world :=
  {| this_ref := this_ref w; cfg := cfg w; _elements := _elements w;
     _current := _current w; el := el w; jar := jar w;
     pending := p; calls := calls w |}.

Definition log (c : call) (w : world) : world :=
  {| this_ref := this_ref w; cfg := cfg w; _elements := _elements w;
     _current := _current w; el := el w; jar := jar w;
     pending := pending w; calls := calls w ++ [c] |}.

(** The constructor: [this._elements = []; this._current = 0]. *)
Definition ElementRotator (ref : nat) (ctr : container) (c : config)
    (cookies : gmap string (gmap string Js.number)) : world :=
  {| this_ref := ref; cfg := c; _elements := []; _current := Js.of_Z 0;
     el := ctr; jar := cookies; pending := []; calls := [] |}.

(** [Dom.setStyle] on a child node of the container. *)
Definition setStyle (target : option nat) (prop : string) (v : cssval)
    (w : world) : world :=
  set_el {| ctr_style := ctr_style (el w);
            childNodes := Dom_setStyle target prop v (childNodes (el w)) |} w.

(** [Dom.setStyle] on the container itself. *)
Definition setStyle_ctr (prop : string) (v : cssval) (w : world) : world :=
  set_el {| ctr_style := <[prop := v]> (ctr_style (el w));
            childNodes := childNodes (el w) |} w.

(** [Cookie.getSub(name, sub, Number)]: the stored sub-value as a number,
    [None] for [null]. *)
Definition Cookie_getSub (cookies : gmap string (gmap string Js.number))
    (name sub : string) : option Js.number :=
  match cookies !! name with
  | Some subs => subs !! sub
  | None => None
  end.

(** [Cookie.setSub(name, sub, v, settings)]: the other sub-values of the
    cookie are kept. *)
Definition Cookie_setSub (name sub : string) (v : Js.number)
    (settings : gmap string string) (w : world) : world :=
  let subs := default ∅ (jar w !! name) in
  set_jar (<[name := <[sub := v]> subs]> (jar w))
          (log (Call_setSub name sub v settings) w).

(** The style of the [i]-th element of [_elements]. *)
Definition elem_style (w : world) (i : nat) : option (gmap string cssval) :=
  match _elements w !! i with
  | Some r => node_style <$> childNodes (el w) !! r
  | None => None
  end.

(** ** The widget's methods *)

Definition _initCurrent (w : world) : world :=
  if cookie_persist (cfg w) then
    let name := cookie_name (cfg w) in
    let current := Cookie_getSub (jar w) name CURRENT in
    let w := log (Call_getSub name CURRENT) w in
    match current with
    | Some c => if Js.truthy c then set_current c w else w
    | None => w
    end
  else w.

Definition _advanceCurrent (w : world) : world :=
  let w :=
    set_current
      (Js.rem (Js.add (_current w) (Js.of_Z 1))
              (Js.of_nat (length (_elements w)))) w in
  if cookie_persist (cfg w) then
    Cookie_setSub (cookie_name (cfg w)) CURRENT (_current w)
                  (cookie_settings (cfg w)) w
  else w.

(** The delay [_schedule] passes to [setTimeout]; [now] is the value of
    [(new Date()).getTime()]. *)
Definition schedule_delay (c : config) (now : Z) : Js.number :=
  let d := Js.mul (Js.of_Z 1000) (Js.Num (show_duration c)) in
  if clock_sync c then Js.sub d (Js.rem (Js.of_Z now) d) else d.

Definition _schedule (now : Z) (w : world) : world :=
  let t := schedule_delay (cfg w) now in
  let w := log (Call_setTimeout t) w in
  set_pending (pending w ++ [Timeout t]) w.

(** [anim.animate()] with [h] subscribed to [anim.onComplete]: the tween
    starts from the present value of its attribute. *)
Definition animate (anim : Anim) (h : handler) (w : world) : world :=
  let from :=
    match anim_el anim with
    | Some r =>
        match childNodes (el w) !! r with
        | Some n => node_style n !! anim_attr anim
        | None => None
        end
    | None => None
    end in
  let w := log (Call_animate anim) w in
  set_pending (pending w ++ [Tween anim from h]) w.

Definition _advance (w : world) : world :=
  let elements := _elements w in
  let total := Js.of_nat (length elements) in
  let idxCurrent := _current w in
  let idxNext := Js.rem (Js.add idxCurrent (Js.of_Z 1)) total in
  let current := Js.index elements idxCurrent in
  let next := Js.index elements idxNext in
  if negb (Js.strict_eq idxNext (Js.of_Z 0)) then
    let anim := {| anim_el := next; anim_attr := "opacity";
                   anim_to := Js.of_Z 1;
                   anim_duration := fade_duration (cfg w) |} in
    let w := setStyle next "visibility" (CStr "visible") w in
    let w := _advanceCurrent w in
    animate anim (FadeUpComplete current) w
  else
    let anim := {| anim_el := current; anim_attr := "opacity";
                   anim_to := Js.of_Z 0;
                   anim_duration := fade_duration (cfg w) |} in
    let w := setStyle next "visibility" (CStr "visible") w in
    let w := setStyle next "opacity" (CNum (Js.of_Z 1)) w in
    let w := _advanceCurrent w in
    animate anim (FadeDownComplete current) w.

(** The bodies of the two completion closures. *)
Definition onComplete (h : handler) (now : Z) (w : world) : world :=
  match h with
  | FadeUpComplete current =>
      let w := setStyle current "opacity" (CNum (Js.of_Z 0)) w in
      let w := setStyle current "visibility" (CStr "hidden") w in
      _schedule now w
  | FadeDownComplete current =>
      let w := setStyle current "visibility" (CStr "hidden") w in
      _schedule now w
  end.

(** The last frame of a tween leaves the attribute at its target. *)
Definition Anim_finish (anim : Anim) (w : world) : world :=
  setStyle (anim_el anim) (anim_attr anim) (CNum (anim_to anim)) w.

(** The host runs one pending callback; [now] is the clock it reads. *)
Definition run_task (now : Z) (t : task) (w : world) : world :=
  match t with
  | Timeout _ => _advance w
  | Tween anim _ h => onComplete h now (Anim_finish anim w)
  end.

Definition step (now : Z) (w : world) : option world :=
  match pending w with
  | [] => None
  | t :: rest => Some (run_task now t (set_pending rest w))
  end.

(** The six [Dom.setStyle] calls of the preparation loop on the [j]-th
    element node. *)
Definition prepare_node (current : Js.number) (j : nat) (n : node) : node :=
  let n := node_setStyle "position" (CStr "absolute") n in
  let n := node_setStyle "left" (CNum (Js.of_Z 0)) n in
  let n := node_setStyle "top" (CNum (Js.of_Z 0)) n in
  let n := node_setStyle "zIndex" (CNum (Js.of_nat j)) n in
  let n := node_setStyle "visibility"
             (if Js.strict_eq (Js.of_nat j) current
              then CStr "visible" else CStr "hidden") n in
  node_setStyle "opacity"
    (if Js.strict_eq (Js.of_nat j) current
     then CNum (Js.of_Z 1) else CNum (Js.of_Z 0)) n.

(** The loop [for (i = j = 0; i < len; i++)] over the nodes from position
    [i] on: the nodes after the loop and the references pushed. *)
Fixpoint prepare (current : Js.number) (nodes : list node) (i j : nat)
    : list node * list nat :=
  match nodes with
  | [] => ([], [])
  | n :: rest =>
      if nodeType n =? 1 then
        let '(ns, es) := prepare current rest (S i) (S j) in
        (prepare_node current j n :: ns, i :: es)
      else
        let '(ns, es) := prepare current rest (S i) j in
        (n :: ns, es)
  end.

Definition render (now : Z) (w : world) : world :=
  let nodes := childNodes (el w) in
  let len := length nodes in
  if negb (len =? 0)%nat then
    let pos := ctr_style (el w) !! "position" in
    let w := _initCurrent w in
    let current := _current w in
    let w :=
      if negb (css_truthy pos) || css_is pos "static"
      then setStyle_ctr "position" (CStr "relative") w else w in
    let '(nodes', elements) := prepare current nodes 0 0 in
    let w := set_el {| ctr_style := ctr_style (el w); childNodes := nodes' |} w in
    let w := set_elements elements w in
    if Js.strict_neq_value (Js.VObject (this_ref w)) (Js.VNumber (Js.of_Z 1))
    then _schedule now w
    else w
  else w.

(** [steps ticks w]: the host runs one pending callback per clock reading
    of [ticks], oldest first; [None] when the queue runs dry. *)
Fixpoint steps (ticks : list Z) (w : world) : option world :=
  match ticks with
  | [] => Some w
  | now :: rest =>
      match step now w with
      | Some w' => steps rest w'
      | None => None
      end
  end.

(** ** Properties of a world *)

#[global] Instance Q_eq_dec : EqDecision Q.
Proof. solve_decision. Defined.

#[global] Instance number_eq_dec : EqDecision Js.number.
Proof. solve_decision. Defined.

#[global] Instance cssval_eq_dec : EqDecision cssval.
Proof. solve_decision. Defined.

(** Visibility "visible" and opacity 1. *)
Definition shown (s : gmap string cssval) : bool :=
  bool_decide (s !! "visibility" = Some (CStr "visible")) &&
  bool_decide (s !! "opacity" = Some (CNum (Js.of_Z 1))).

(** Visibility "hidden" and opacity 0. *)
Definition concealed (s : gmap string cssval) : bool :=
  bool_decide (s !! "visibility" = Some (CStr "hidden")) &&
  bool_decide (s !! "opacity" = Some (CNum (Js.of_Z 0))).

Definition styled_for (c : nat) (w : world) (i : nat) : bool :=
  match elem_style w i with
  | Some s => if (i =? c)%nat then shown s else concealed s
  | None => false
  end.

(** The Idle condition with element [c] as the visible one: element [c]
    is shown and every other element is concealed. *)
Definition idle_at (c : nat) (w : world) : bool :=
  forallb (styled_for c w) (seq 0 (length (_elements w))).

(** Exactly one element is shown and all the others are concealed. *)
Definition exactly_one_shown (w : world) : Prop :=
  ∃ c, (c < length (_elements w))%nat ∧
    (∀ i, (i < length (_elements w))%nat →
       ∃ s, elem_style w i = Some s ∧
            if decide (i = c) then shown s = true ∧ concealed s = false
            else concealed s = true ∧ shown s = false).

(** No element is shown: all of them are concealed. *)
Definition none_shown (w : world) : Prop :=
  ∀ i, (i < length (_elements w))%nat →
    ∃ s, elem_style w i = Some s ∧ concealed s = true ∧ shown s = false.

(** [_elements] holds distinct references to child nodes of the container. *)
Definition elements_ok (w : world) : bool :=
  bool_decide (NoDup (_elements w)) &&
  forallb (λ r, (r <? length (childNodes (el w)))%nat) (_elements w).

(** The element children of a container: its child nodes of type 1. *)
Definition element_children (ctr : container) : list node :=
  filter (λ n, nodeType n = 1) (childNodes ctr).

(** [t mod d] as the specification writes it: the remainder of the floored
    division, in [0, d) for a positive [d]. *)
Definition spec_mod (t d : Q) : Q :=
  (t - d * inject_Z (Qfloor (t / d)))%Q.

(** The two tweens [_advance] builds. *)
Definition fade_up (c : config) (next : option nat) : Anim :=
  {| anim_el := next; anim_attr := "opacity"; anim_to := Js.of_Z 1;
     anim_duration := fade_duration c |}.

Definition fade_down (c : config) (current : option nat) : Anim :=
  {| anim_el := current; anim_attr := "opacity"; anim_to := Js.of_Z 0;
     anim_duration := fade_duration c |}.

(** What initiating a transition to element [n] does to the style of
    element [i]: the incoming element is made visible, and opaque at once
    when it is element 0. *)
Definition initiate_style (n i : nat) (s : gmap string cssval)
    : gmap string cssval :=
  if decide (i = n) then
    if decide (n = 0%nat)
    then <["opacity" := CNum (Js.of_Z 1)]> (<["visibility" := CStr "visible"]> s)
    else <["visibility" := CStr "visible"]> s
  else s.

(** What a whole transition from element [c] to element [n] does to the
    style of element [i]: the incoming element is made visible and opaque,
    then the outgoing element transparent and hidden. *)
Definition cycle_style (c n i : nat) (s : gmap string cssval)
    : gmap string cssval :=
  let s := if decide (i = n)
           then <["opacity" := CNum (Js.of_Z 1)]>
                  (<["visibility" := CStr "visible"]> s)
           else s in
  if decide (i = c)
  then <["visibility" := CStr "hidden"]> (<["opacity" := CNum (Js.of_Z 0)]> s)
  else s.

(** One callback of the single-element cycle: [timer] tells whether the
    timer or the tween is pending. *)
Definition single_phase (c : config) (r0 : nat) (timer : bool) (w : world) : Prop :=
  elements_ok w = true ∧ _elements w = [r0] ∧ _current w = Js.of_Z 0 ∧
  cfg w = c ∧
  if timer then ∃ t, pending w = [Timeout t]
  else ∃ from, pending w =
         [Tween (fade_down c (Some r0)) from (FadeDownComplete (Some r0))].

(** ** Sample configurations, containers and worlds *)

Definition sync5 : config :=
  {| show_duration := 5; fade_duration := 1; clock_sync := true;
     cookie_persist := false; cookie_name := "elementrotator";
     cookie_settings := {[ "path" := "/" ]} |}.

Definition persist5 : config :=
  {| show_duration := 5; fade_duration := 1; clock_sync := false;
     cookie_persist := true; cookie_name := "elementrotator";
     cookie_settings := {[ "path" := "/" ]} |}.

Definition text_node : node := {| nodeType := 3; node_style := ∅ |}.
Definition div_node : node := {| nodeType := 1; node_style := ∅ |}.

(** [<div> <img> <img> <img> </div>] with whitespace between the tags. *)
Definition banner3 : container :=
  {| ctr_style := ∅;
     childNodes := [text_node; div_node; text_node; div_node; text_node;
                    div_node; text_node] |}.

Definition banner1 : container :=
  {| ctr_style := ∅; childNodes := [text_node; div_node; text_node] |}.

(** A container holding only whitespace, and an empty one. *)
Definition blank : container :=
  {| ctr_style := ∅; childNodes := [text_node] |}.

Definition empty : container :=
  {| ctr_style := ∅; childNodes := [] |}.

Definition stored (k : Z) : gmap string (gmap string Js.number) :=
  {[ "elementrotator" := {[ CURRENT := Js.of_Z k ]} ]}.

(** Worlds just after [render]: three banners starting at the first one,
    three banners starting at the stored index 2, and a single banner. *)
Definition started3 : world :=
  render 0 (ElementRotator 1 banner3 _CONFIG_DEFAULTS ∅).

Definition resumed3 : world :=
  render 0 (ElementRotator 1 banner3 persist5 (stored 2)).

Definition started1 : world :=
  render 0 (ElementRotator 1 banner1 _CONFIG_DEFAULTS ∅).

(** Worlds just after [render] on a container holding only whitespace, on
    an empty container with a stored index, and on three banners with the
    stored index 7. *)
Definition blank_world : world :=
  render 0 (ElementRotator 1 blank persist5 ∅).

Definition empty_world : world :=
  render 0 (ElementRotator 1 empty persist5 (stored 3)).

Definition overshoot_world : world :=
  render 0 (ElementRotator 1 banner3 persist5 (stored 7)).

(** A first visit with persistence on, and the instance of the next visit
    built on the cookies the first one left after one advance. *)
Definition first_visit : world :=
  render 0 (ElementRotator 1 banner3 persist5 ∅).

Definition next_visit : world :=
  ElementRotator 2 banner3 persist5 (jar (_advanceCurrent first_visit)).

(** ** Runs of the host *)

(** [phase timer w]: the one pending callback is the timer, or a tween. *)
Definition phase (timer : bool) (w : world) : Prop :=
  if timer then ∃ t, pending w = [Timeout t]
  else ∃ anim from h, pending w = [Tween anim from h].

(** The number of times [_advance] has run after [k] callbacks. *)
Definition advances (timer : bool) (k : nat) : nat :=
  if timer then ((k + 1) / 2)%nat else (k / 2)%nat.

Definition is_cookie_call (c : call) : bool :=
  match c with
  | Call_getSub _ _ | Call_setSub _ _ _ _ => true
  | _ => false
  end.

(** The stored sub-value is the current index. *)
Definition in_sync (w : world) : Prop :=
  Cookie_getSub (jar w) (cookie_name (cfg w)) CURRENT = Some (_current w).

(** A configuration with a show duration of zero, and three banners in a
    container that is already positioned. *)
Definition sync0 : config :=
  {| show_duration := 0; fade_duration := 1; clock_sync := true;
     cookie_persist := false; cookie_name := "elementrotator";
     cookie_settings := {[ "path" := "/" ]} |}.

Definition pinned3 : container :=
  {| ctr_style := {[ "position" := CStr "absolute" ]};
     childNodes := childNodes banner3 |}.

(** One frame of a tween writes a value to the tweened attribute of its
    element; [Anim_frames] runs the frames that write the values [vs], in
    order. *)
Definition Anim_frame (anim : Anim) (w : world) (v : Js.number) : world :=
  setStyle (anim_el anim) (anim_attr anim) (CNum v) w.

Definition Anim_frames (anim : Anim) (vs : list Js.number) (w : world) : world :=
  foldl (Anim_frame anim) w vs.

(** Side conditions on the sample worlds are settled by evaluation. *)
Ltac by_compute :=
  vm_compute; first [reflexivity | lia | discriminate | done].

(** * Numbers *)

Lemma Qred_inject_Z (z : Z) : Qred (inject_Z z) = inject_Z z.
Proof.
  unfold Qred, inject_Z.
  pose proof (Z.ggcd_gcd z 1) as Hg.
  pose proof (Z.ggcd_correct_divisors z 1) as Hd.
  destruct (Z.ggcd z 1) as [g [a b]]; simpl in *.
  rewrite Z.gcd_1_r in Hg. subst g. destruct Hd as [-> Hb].
  assert (b = 1) by lia. subst b. simpl. f_equal. lia.
Qed.

Lemma Qred_eq_inject (q : Q) (z : Z) : (q == inject_Z z)%Q → Qred q = inject_Z z.
Proof. intros H. rewrite <- (Qred_inject_Z z). by apply Qred_complete. Qed.

Lemma add_of_Z (a b : Z) : Js.add (Js.of_Z a) (Js.of_Z b) = Js.of_Z (a + b).
Proof.
  unfold Js.add, Js.of_Z. f_equal. apply Qred_eq_inject.
  by rewrite inject_Z_plus.
Qed.

Lemma Qeq_bool_inject_Z (a b : Z) : Qeq_bool (inject_Z a) (inject_Z b) = (a =? b).
Proof.
  unfold Qeq_bool, inject_Z; simpl. rewrite !Z.mul_1_r.
  unfold Z.eqb. destruct (a ?= b); reflexivity.
Qed.

Lemma Qtrunc_inject_Z (a b : Z) :
  b ≠ 0 → Js.Qtrunc (inject_Z a / inject_Z b) = Z.quot a b.
Proof.
  intros Hb. unfold Js.Qtrunc, Qdiv, Qinv, Qmult, inject_Z; simpl.
  destruct b as [|p|p]; [done | |]; simpl.
  - by rewrite Z.mul_1_r.
  - rewrite <- (Z.quot_opp_opp a (Z.neg p)) by done. simpl.
    f_equal. lia.
Qed.

Lemma rem_of_Z (a b : Z) :
  b ≠ 0 → Js.rem (Js.of_Z a) (Js.of_Z b) = Js.of_Z (Z.rem a b).
Proof.
  intros Hb. unfold Js.rem, Js.of_Z.
  change 0%Q with (inject_Z 0). rewrite Qeq_bool_inject_Z.
  destruct (Z.eqb_spec b 0) as [|_]; [done|].
  f_equal. apply Qred_eq_inject. rewrite Qtrunc_inject_Z by done.
  unfold Qminus. rewrite <- inject_Z_mult, <- inject_Z_opp, <- inject_Z_plus.
  apply inject_Z_injective. pose proof (Z.quot_rem' a b). lia.
Qed.

Lemma strict_eq_of_Z (a b : Z) : Js.strict_eq (Js.of_Z a) (Js.of_Z b) = (a =? b).
Proof. apply Qeq_bool_inject_Z. Qed.

Lemma index_of_of_Z (a : Z) : 0 <= a → Js.index_of (Js.of_Z a) = Some (Z.to_nat a).
Proof.
  intros Ha. unfold Js.index_of, Js.of_Z. rewrite Qred_inject_Z. simpl.
  destruct (Z.leb_spec 0 a); [done | lia].
Qed.

Lemma advance_index (c N : nat) :
  (1 ≤ N)%nat →
  Js.rem (Js.add (Js.of_nat c) (Js.of_Z 1)) (Js.of_nat N) = Js.of_nat ((c + 1) mod N).
Proof.
  intros HN. unfold Js.of_nat. rewrite add_of_Z, rem_of_Z by lia.
  f_equal. rewrite Z.rem_mod_nonneg by lia.
  rewrite Nat2Z.inj_mod. f_equal. lia.
Qed.

Lemma Qtrunc_nonneg (q : Q) : (0 <= q)%Q → Js.Qtrunc q = Qfloor q.
Proof.
  destruct q as [n d]. unfold Qle, Js.Qtrunc, Qfloor; simpl. intros Hn.
  apply Z.quot_div_nonneg; lia.
Qed.

Lemma spec_mod_bounds (x y : Q) :
  (0 < y)%Q → (0 <= spec_mod x y)%Q ∧ (spec_mod x y < y)%Q.
Proof.
  intros Hy. unfold spec_mod.
  pose proof (Qfloor_le (x / y)) as Hlo.
  pose proof (Qlt_floor (x / y)) as Hhi.
  rewrite inject_Z_plus in Hhi.
  assert (Hx : (x == y * (x / y))%Q).
  { rewrite Qmult_div_r; [reflexivity|]. intros E. rewrite E in Hy. by apply Qlt_irrefl in Hy. }
  set (z := (x / y)%Q) in *. set (f := inject_Z (Qfloor z)) in *.
  change (inject_Z 1) with 1%Q in Hhi.
  assert (E : (x - y * f == y * (z - f))%Q) by (rewrite Hx at 1; ring).
  rewrite E. split.
  - apply Qmult_le_0_compat; lra.
  - assert (E1 : (y == y * 1)%Q) by ring.
    rewrite E1 at 2. apply Qmult_lt_l; lra.
Qed.

Lemma rem_nonneg (x y : Q) :
  (0 <= x)%Q → (0 < y)%Q →
  ∃ r, Js.rem (Js.Num x) (Js.Num y) = Js.Num r ∧ (r == spec_mod x y)%Q.
Proof.
  intros Hx Hy. unfold Js.rem.
  destruct (Qeq_bool y 0) eqn:E.
  { apply Qeq_bool_eq in E. rewrite E in Hy. by apply Qlt_irrefl in Hy. }
  eexists; split; [reflexivity|].
  rewrite Qred_correct. unfold spec_mod.
  rewrite Qtrunc_nonneg; [reflexivity|].
  apply Qle_shift_div_l; [done|]. by rewrite Qmult_0_l.
Qed.

(** * The schedule delay *)

Lemma mul_1000_pos (sd : Q) :
  (0 < sd)%Q →
  ∃ d, Js.mul (Js.of_Z 1000) (Js.Num sd) = Js.Num d ∧
       (d == 1000 * sd)%Q ∧ (0 < d)%Q.
Proof.
  intros Hsd. eexists; split; [reflexivity|].
  assert (E : (Qred (inject_Z 1000 * sd) == 1000 * sd)%Q) by apply Qred_correct.
  split; [done|]. rewrite E. lra.
Qed.

Lemma spec_mod_comp (t d d' : Q) :
  (d' == d)%Q → (spec_mod t d' == spec_mod t d)%Q.
Proof.
  intros Hd. unfold spec_mod.
  assert (Ef : Qfloor (t / d') = Qfloor (t / d)).
  { apply Qfloor_comp, Qdiv_comp; [reflexivity | exact Hd]. }
  rewrite Ef. apply Qplus_comp; [reflexivity|].
  apply Qopp_comp, Qmult_comp; [exact Hd | reflexivity].
Qed.




(** * Worlds *)

Lemma _advanceCurrent_elements (w : world) :
  _elements (_advanceCurrent w) = _elements w.
Proof. unfold _advanceCurrent; simpl. by destruct (cookie_persist (cfg w)). Qed.

Lemma _advanceCurrent_current (w : world) :
  _current (_advanceCurrent w) =
  Js.rem (Js.add (_current w) (Js.of_Z 1)) (Js.of_nat (length (_elements w))).
Proof. unfold _advanceCurrent; simpl. by destruct (cookie_persist (cfg w)). Qed.

Lemma _advanceCurrent_el (w : world) : el (_advanceCurrent w) = el w.
Proof. unfold _advanceCurrent; simpl. by destruct (cookie_persist (cfg w)). Qed.

Lemma _advanceCurrent_cfg (w : world) : cfg (_advanceCurrent w) = cfg w.
Proof. unfold _advanceCurrent; simpl. by destruct (cookie_persist (cfg w)). Qed.

Lemma _advanceCurrent_pending (w : world) : pending (_advanceCurrent w) = pending w.
Proof. unfold _advanceCurrent; simpl. by destruct (cookie_persist (cfg w)). Qed.

(** The style of the [i]-th of the references [els] among [nodes]. *)
Lemma elem_style_eq (w : world) (i : nat) :
  elem_style w i =
  match _elements w !! i with
  | Some r => node_style <$> childNodes (el w) !! r
  | None => None
  end.
Proof. reflexivity. Qed.

Lemma index_of_nat (arr : list nat) (c : nat) :
  Js.index arr (Js.of_nat c) = arr !! c.
Proof.
  unfold Js.index, Js.of_nat. rewrite index_of_of_Z by lia.
  by rewrite Nat2Z.id.
Qed.


Lemma _advance_in_range (w : world) (c : nat) :
  (c < length (_elements w))%nat →
  _current w = Js.of_nat c →
  let n := ((c + 1) mod length (_elements w))%nat in
  let current := _elements w !! c in
  let next := _elements w !! n in
  _advance w =
  if decide (n = 0%nat) then
    animate (fade_down (cfg w) current) (FadeDownComplete current)
      (_advanceCurrent
         (setStyle next "opacity" (CNum (Js.of_Z 1))
            (setStyle next "visibility" (CStr "visible") w)))
  else
    animate (fade_up (cfg w) next) (FadeUpComplete current)
      (_advanceCurrent (setStyle next "visibility" (CStr "visible") w)).
Proof.
  intros Hc Hcur n current next. unfold _advance.
  rewrite Hcur, advance_index by lia. fold n.
  rewrite !index_of_nat. unfold Js.of_nat at 1.
  rewrite strict_eq_of_Z.
  case_decide as Hn; destruct (Z.eqb_spec (Z.of_nat n) 0); (reflexivity || lia).
Qed.

Lemma step_pending (now : Z) (w : world) (t : task) (rest : list task) :
  pending w = t :: rest →
  step now w = Some (run_task now t (set_pending rest w)).
Proof. intros H. unfold step. by rewrite H. Qed.


Lemma elem_style_setStyle (w : world) (j r : nat) (p : string) (v : cssval) (i : nat) :
  NoDup (_elements w) →
  _elements w !! j = Some r →
  elem_style (setStyle (Some r) p v w) i =
  (if decide (i = j) then <[p := v]> else id) <$> elem_style w i.
Proof.
  intros Hnd Hj. rewrite !elem_style_eq. simpl.
  destruct (_elements w !! i) as [r'|] eqn:Hi; [|done].
  rewrite list_lookup_alter. case_decide as Hr.
  - subst r'. rewrite (NoDup_lookup _ _ _ _ Hnd Hi Hj).
    rewrite decide_True by done. rewrite <- !option_fmap_compose. done.
  - rewrite decide_False; [by rewrite option_fmap_id|].
    intros ->. congruence.
Qed.

Lemma elem_style_frame (w w' : world) (i : nat) :
  _elements w = _elements w' → el w = el w' →
  elem_style w i = elem_style w' i.
Proof. intros He Hel. rewrite !elem_style_eq. by rewrite He, Hel. Qed.

Lemma elements_ok_spec (w : world) :
  elements_ok w = true ↔
  NoDup (_elements w) ∧
  ∀ i r, _elements w !! i = Some r → (r < length (childNodes (el w)))%nat.
Proof.
  unfold elements_ok. rewrite andb_true_iff, bool_decide_eq_true, forallb_forall.
  split; intros [Hnd Hin]; (split; [done|]).
  - intros i r Hi. apply Nat.ltb_lt, Hin.
    apply list_elem_of_In, list_elem_of_lookup. eauto.
  - intros r Hr. apply list_elem_of_In, list_elem_of_lookup in Hr as [i Hi].
    apply Nat.ltb_lt. eauto.
Qed.

Lemma length_Dom_setStyle (target : option nat) (p : string) (v : cssval) (nodes : list node) :
  length (Dom_setStyle target p v nodes) = length nodes.
Proof. destruct target; simpl; [apply length_alter | done]. Qed.

Lemma transition_spec (w : world) (c : nat) (t : Js.number) (now1 now2 : Z) :
  elements_ok w = true →
  (c < length (_elements w))%nat →
  _current w = Js.of_nat c →
  pending w = [Timeout t] →
  let n := ((c + 1) mod length (_elements w))%nat in
  ∃ w2, steps [now1; now2] w = Some w2 ∧
    _elements w2 = _elements w ∧
    _current w2 = Js.of_nat n ∧
    cfg w2 = cfg w ∧
    this_ref w2 = this_ref w ∧
    pending w2 = [Timeout (schedule_delay (cfg w) now2)] ∧
    elements_ok w2 = true ∧
    ∀ i, elem_style w2 i = cycle_style c n i <$> elem_style w i.
Proof.
  intros Hok Hc Hcur Hpend n.
  pose proof Hok as [Hnd Hrange]%elements_ok_spec.
  assert (Hn : (n < length (_elements w))%nat) by (apply Nat.mod_upper_bound; lia).
  destruct (lookup_lt_is_Some_2 _ _ Hc) as [rc Hrc].
  destruct (lookup_lt_is_Some_2 _ _ Hn) as [rn Hrn].
  set (wf := setStyle (Some rc) "visibility" (CStr "hidden")
              (setStyle (Some rc) "opacity" (CNum (Js.of_Z 0))
                (setStyle (Some rn) "opacity" (CNum (Js.of_Z 1))
                  (setStyle (Some rn) "visibility" (CStr "visible") w)))).
  assert (Hstyles : ∀ i, elem_style wf i = cycle_style c n i <$> elem_style w i).
  { intros i. unfold wf.
    rewrite (elem_style_setStyle _ c), (elem_style_setStyle _ c),
            (elem_style_setStyle _ n), (elem_style_setStyle _ n) by done.
    unfold cycle_style. rewrite <- !option_fmap_compose.
    destruct (elem_style w i); [simpl|done].
    repeat case_decide; done. }
  simpl. rewrite (step_pending _ _ _ _ Hpend). simpl.
  rewrite (_advance_in_range _ c) by done. simpl. fold n. rewrite Hrc, Hrn.
  assert (Hframe : ∀ w2, _elements w2 = _elements wf → el w2 = el wf →
     _current w2 = Js.of_nat n → cfg w2 = cfg w → this_ref w2 = this_ref w →
     pending w2 = [Timeout (schedule_delay (cfg w) now2)] →
     _elements w2 = _elements w ∧ _current w2 = Js.of_nat n ∧ cfg w2 = cfg w ∧
     this_ref w2 = this_ref w ∧
     pending w2 = [Timeout (schedule_delay (cfg w) now2)] ∧
     elements_ok w2 = true ∧
     ∀ i, elem_style w2 i = cycle_style c n i <$> elem_style w i).
  { intros w2 He Hel Hcur2 Hcfg Hthis Hp. repeat (split; [done|]). split.
    - apply elements_ok_spec. rewrite He, Hel. split; [done|].
      intros i r Hi. unfold wf; simpl. rewrite !length_alter. eauto.
    - intros i. rewrite <- Hstyles. by apply elem_style_frame. }
  assert (Hnext : Js.rem (Js.add (Js.of_nat c) (Js.of_Z 1))
                    (Js.of_nat (length (_elements w))) = Js.of_nat n)
    by (apply advance_index; lia).
  case_decide as Hn0; unfold step, animate, _advanceCurrent; simpl;
    destruct (cookie_persist (cfg w)); simpl;
    (eexists; split; [reflexivity|]);
    apply Hframe; simpl; rewrite ?Hcur, ?Hnext; done.
Qed.

(** The first half of a transition: the timer fires and [_advance] runs. *)
Lemma initiate_spec (w : world) (c : nat) (t : Js.number) (now : Z) :
  elements_ok w = true →
  (c < length (_elements w))%nat →
  _current w = Js.of_nat c →
  pending w = [Timeout t] →
  let n := ((c + 1) mod length (_elements w))%nat in
  ∃ rc rn w1,
    _elements w !! c = Some rc ∧ _elements w !! n = Some rn ∧
    step now w = Some w1 ∧
    _elements w1 = _elements w ∧
    _current w1 = Js.of_nat n ∧
    cfg w1 = cfg w ∧
    elements_ok w1 = true ∧
    (∀ i, elem_style w1 i = initiate_style n i <$> elem_style w i) ∧
    pending w1 =
      [if decide (n = 0%nat)
       then Tween (fade_down (cfg w) (Some rc))
                  (elem_style w1 c ≫= (.!! "opacity"))
                  (FadeDownComplete (Some rc))
       else Tween (fade_up (cfg w) (Some rn))
                  (elem_style w1 n ≫= (.!! "opacity"))
                  (FadeUpComplete (Some rc))].
Proof.
  intros Hok Hc Hcur Hpend n.
  pose proof Hok as [Hnd Hrange]%elements_ok_spec.
  assert (Hn : (n < length (_elements w))%nat) by (apply Nat.mod_upper_bound; lia).
  destruct (lookup_lt_is_Some_2 _ _ Hc) as [rc Hrc].
  destruct (lookup_lt_is_Some_2 _ _ Hn) as [rn Hrn].
  exists rc, rn.
  set (wi := if decide (n = 0%nat)
             then setStyle (Some rn) "opacity" (CNum (Js.of_Z 1))
                    (setStyle (Some rn) "visibility" (CStr "visible") w)
             else setStyle (Some rn) "visibility" (CStr "visible") w).
  assert (Hstyles : ∀ i, elem_style wi i = initiate_style n i <$> elem_style w i).
  { intros i. unfold wi, initiate_style. case_decide.
    - rewrite (elem_style_setStyle _ n), (elem_style_setStyle _ n) by done.
      rewrite <- !option_fmap_compose.
      destruct (elem_style w i); [simpl|done]. by repeat case_decide.
    - rewrite (elem_style_setStyle _ n) by done.
      destruct (elem_style w i); [simpl|done]. by repeat case_decide. }
  assert (Hwi : _elements wi = _elements w ∧
                length (childNodes (el wi)) = length (childNodes (el w))).
  { unfold wi. case_decide; simpl; by rewrite !length_alter. }
  destruct Hwi as [Hwie Hwil].
  assert (Hnext : Js.rem (Js.add (Js.of_nat c) (Js.of_Z 1))
                    (Js.of_nat (length (_elements w))) = Js.of_nat n)
    by (apply advance_index; lia).
  rewrite (step_pending _ _ _ _ Hpend). simpl.
  rewrite (_advance_in_range _ c) by done. simpl. fold n. rewrite Hrc, Hrn.
  eexists. split; [done|]. split; [done|]. split; [reflexivity|].
  assert (Hframe : ∀ w1 : world, _elements w1 = _elements wi → el w1 = el wi →
     elements_ok w1 = true ∧
     (∀ i, elem_style w1 i = initiate_style n i <$> elem_style w i) ∧
     ∀ j r, _elements w !! j = Some r →
       match childNodes (el w1) !! r with
       | Some nd => node_style nd !! "opacity"
       | None => None
       end = elem_style w1 j ≫= (.!! "opacity")).
  { intros w1 He Hel. split; [|split].
    - apply elements_ok_spec. rewrite He, Hel, Hwie, Hwil. done.
    - intros i. rewrite <- Hstyles. by apply elem_style_frame.
    - intros j r Hj. rewrite elem_style_eq, He, Hwie, Hj.
      by destruct (childNodes (el w1) !! r). }
  unfold wi in Hframe.
  case_decide as Hn0; unfold animate, _advanceCurrent; simpl;
    destruct (cookie_persist (cfg w)); simpl;
    rewrite ?Hcur, ?Hnext;
    (split; [done|]); (split; [done|]); (split; [done|]);
    match goal with
    | |- elements_ok ?w1 = true ∧ _ =>
        destruct (Hframe w1) as (H1 & H2 & H3); [done | done |];
        split; [exact H1|]; split; [exact H2|];
        first [ rewrite <- (H3 c rc Hrc) | rewrite <- (H3 n rn Hrn) ]; reflexivity
    end.
Qed.

(** The second half: the tween ends and its completion handler runs. *)
Lemma complete_spec (w1 : world) (anim : Anim) (from : option cssval)
    (h : handler) (now : Z) :
  pending w1 = [Tween anim from h] →
  ∃ w2, step now w1 = Some w2 ∧
    _elements w2 = _elements w1 ∧
    _current w2 = _current w1 ∧
    cfg w2 = cfg w1 ∧
    jar w2 = jar w1 ∧
    pending w2 = [Timeout (schedule_delay (cfg w1) now)] ∧
    calls w2 = calls w1 ++ [Call_setTimeout (schedule_delay (cfg w1) now)] ∧
    length (childNodes (el w2)) = length (childNodes (el w1)).
Proof.
  intros Hpend. rewrite (step_pending _ _ _ _ Hpend).
  eexists. split; [reflexivity|].
  destruct h; simpl; rewrite !length_Dom_setStyle; done.
Qed.

(** * The Idle condition *)

Lemma shown_set (s : gmap string cssval) :
  shown (<["opacity" := CNum (Js.of_Z 1)]>
           (<["visibility" := CStr "visible"]> s)) = true.
Proof.
  unfold shown. rewrite lookup_insert_ne, !lookup_insert_eq by done.
  by rewrite !bool_decide_eq_true_2.
Qed.

Lemma concealed_set (s : gmap string cssval) :
  concealed (<["visibility" := CStr "hidden"]>
               (<["opacity" := CNum (Js.of_Z 0)]> s)) = true.
Proof.
  unfold concealed. rewrite lookup_insert_eq, lookup_insert_ne, lookup_insert_eq by done.
  by rewrite !bool_decide_eq_true_2.
Qed.

Lemma shown_not_concealed (s : gmap string cssval) :
  shown s = true → concealed s = false.
Proof.
  unfold shown, concealed. rewrite andb_true_iff, !bool_decide_eq_true.
  intros [-> _]. by rewrite bool_decide_eq_false_2.
Qed.

Lemma concealed_not_shown (s : gmap string cssval) :
  concealed s = true → shown s = false.
Proof.
  unfold shown, concealed. rewrite andb_true_iff, !bool_decide_eq_true.
  intros [-> _]. by rewrite bool_decide_eq_false_2.
Qed.

Lemma idle_at_spec (c : nat) (w : world) :
  idle_at c w = true ↔
  ∀ i, (i < length (_elements w))%nat →
    ∃ s, elem_style w i = Some s ∧
         if decide (i = c) then shown s = true else concealed s = true.
Proof.
  unfold idle_at. rewrite forallb_forall. split.
  - intros H i Hi. specialize (H i). unfold styled_for in H.
    destruct (elem_style w i) as [s|].
    + exists s. split; [done|].
      assert (Hin : In i (seq 0 (length (_elements w)))) by (apply in_seq; lia).
      specialize (H Hin). destruct (Nat.eqb_spec i c); case_decide; done.
    + assert (Hin : In i (seq 0 (length (_elements w)))) by (apply in_seq; lia).
      by specialize (H Hin).
  - intros H i [_ Hi]%in_seq. destruct (H i) as (s & Hs & Hsty); [lia|].
    unfold styled_for. rewrite Hs.
    destruct (Nat.eqb_spec i c); case_decide; done.
Qed.

Lemma idle_at_exactly_one (c : nat) (w : world) :
  (c < length (_elements w))%nat →
  idle_at c w = true → exactly_one_shown w.
Proof.
  intros Hc Hidle. exists c. split; [done|]. intros i Hi.
  destruct (proj1 (idle_at_spec c w) Hidle i Hi) as (s & Hs & Hsty).
  exists s. split; [done|]. case_decide.
  - split; [done|]. by apply shown_not_concealed.
  - split; [done|]. by apply concealed_not_shown.
Qed.

(** The Idle condition is carried from element [c] to element [n] by a
    whole transition, provided they differ. *)
Lemma idle_at_cycle_style (w w2 : world) (c n : nat) :
  _elements w2 = _elements w →
  (∀ i, elem_style w2 i = cycle_style c n i <$> elem_style w i) →
  c ≠ n →
  idle_at c w = true → idle_at n w2 = true.
Proof.
  intros He Hsty Hne Hidle. apply idle_at_spec. rewrite He. intros i Hi.
  destruct (proj1 (idle_at_spec c w) Hidle i Hi) as (s & Hs & Hs').
  rewrite Hsty, Hs. simpl. eexists; split; [done|].
  unfold cycle_style.
  repeat case_decide; subst; first [done | apply shown_set | apply concealed_set].
Qed.

Lemma mod_succ_neq (c N : nat) :
  (2 ≤ N)%nat → (c < N)%nat → ((c + 1) mod N)%nat ≠ c.
Proof.
  intros HN Hc. destruct (decide (c + 1 = N)%nat) as [E|E].
  - rewrite E, Nat.Div0.mod_same. lia.
  - rewrite Nat.mod_small; lia.
Qed.


Lemma steps_two (now1 now2 : Z) (w w1 w2 : world) :
  step now1 w = Some w1 → step now2 w1 = Some w2 →
  steps [now1; now2] w = Some w2.
Proof. intros H1 H2. simpl. by rewrite H1, H2. Qed.


Lemma elements_ok_frame (w w' : world) :
  _elements w' = _elements w →
  length (childNodes (el w')) = length (childNodes (el w)) →
  elements_ok w = true → elements_ok w' = true.
Proof.
  intros He Hl. rewrite !elements_ok_spec, He, Hl. done.
Qed.

Lemma single_phase_step (c : config) (r0 : nat) (timer : bool) (now : Z) (w : world) :
  single_phase c r0 timer w →
  ∃ w', step now w = Some w' ∧ single_phase c r0 (negb timer) w'.
Proof.
  intros (Hok & He & Hcur & Hcfg & Hp). destruct timer.
  - destruct Hp as [t Hp].
    assert (Hc : (0 < length (_elements w))%nat) by (rewrite He; simpl; lia).
    destruct (initiate_spec w 0 t now Hok Hc Hcur Hp)
      as (rc & rn & w1 & Hrc & _ & Hstep & He1 & Hcur1 & Hcfg1 & Hok1 & _ & Hp1).
    rewrite He in Hrc, Hcur1, Hp1. simpl in Hrc, Hcur1, Hp1.
    injection Hrc as <-.
    exists w1. split; [done|]. unfold single_phase.
    rewrite He1, Hcfg1, Hcfg in *. repeat (split; [done|]). by eexists.
  - destruct Hp as [from Hp].
    destruct (complete_spec w _ _ _ now Hp)
      as (w2 & Hstep & He2 & Hcur2 & Hcfg2 & _ & Hp2 & _ & Hlen).
    exists w2. split; [done|]. unfold single_phase.
    rewrite He2, Hcur2, Hcfg2. split.
    { by apply (elements_ok_frame w). }
    repeat (split; [done|]). by eexists.
Qed.

Lemma single_phase_steps (c : config) (r0 : nat) (ticks : list Z) :
  ∀ (timer : bool) (w : world),
  single_phase c r0 timer w →
  ∃ w', steps ticks w = Some w' ∧
        single_phase c r0 (if Nat.even (length ticks) then timer else negb timer) w'.
Proof.
  induction ticks as [|now ticks IH]; intros timer w Hph.
  - by exists w.
  - destruct (single_phase_step c r0 timer now w Hph) as (w1 & Hstep & Hph1).
    destruct (IH _ _ Hph1) as (w' & Hsteps & Hph').
    exists w'. split; [simpl; by rewrite Hstep|].
    change (length (now :: ticks)) with (S (length ticks)).
    rewrite Nat.even_succ, <- Nat.negb_even.
    destruct (Nat.even (length ticks)); simpl in *; [done|].
    by rewrite negb_involutive in Hph'.
Qed.


(** * Rendering *)

Lemma _initCurrent_frame (w : world) :
  _elements (_initCurrent w) = _elements w ∧ el (_initCurrent w) = el w ∧
  cfg (_initCurrent w) = cfg w ∧ jar (_initCurrent w) = jar w ∧
  pending (_initCurrent w) = pending w ∧ this_ref (_initCurrent w) = this_ref w.
Proof.
  unfold _initCurrent. destruct (cookie_persist (cfg w)); [|done].
  destruct (Cookie_getSub _ _ _) as [c|]; [|done].
  by destruct (Js.truthy c).
Qed.

Lemma prepare_node_style (current : Js.number) (j : nat) (n : node) :
  if Js.strict_eq (Js.of_nat j) current
  then shown (node_style (prepare_node current j n)) = true
  else concealed (node_style (prepare_node current j n)) = true.
Proof.
  unfold prepare_node. destruct (Js.strict_eq (Js.of_nat j) current); simpl.
  - unfold shown. rewrite lookup_insert_eq, lookup_insert_ne, lookup_insert_eq by done.
    by rewrite !bool_decide_eq_true_2.
  - unfold concealed. rewrite lookup_insert_eq, lookup_insert_ne, lookup_insert_eq by done.
    by rewrite !bool_decide_eq_true_2.
Qed.

Lemma prepare_spec (current : Js.number) (nodes : list node) :
  ∀ (i j : nat) (ns : list node) (es : list nat),
  prepare current nodes i j = (ns, es) →
  length ns = length nodes ∧
  length es = length (filter (λ n, nodeType n = 1) nodes) ∧
  (∀ p r, es !! p = Some r →
     (i ≤ r)%nat ∧
     ∃ n, nodes !! (r - i)%nat = Some n ∧
          ns !! (r - i)%nat = Some (prepare_node current (j + p) n)) ∧
  (∀ p q r r', (p < q)%nat → es !! p = Some r → es !! q = Some r' → (r < r')%nat).
Proof.
  induction nodes as [|n nodes IH]; intros i j ns es Hprep; simpl in Hprep.
  - injection Hprep as <- <-. repeat split; try done; intros p; intros;
      by rewrite ?lookup_nil in *.
  - destruct (Z.eqb_spec (nodeType n) 1) as [Ht|Ht].
    + destruct (prepare current nodes (S i) (S j)) as [ns' es'] eqn:Hrec.
      injection Hprep as <- <-.
      destruct (IH _ _ _ _ Hrec) as (Hlen & Hcount & Hlook & Hsorted).
      rewrite filter_cons_True by done. simpl.
      split; [by rewrite Hlen|]. split; [by rewrite Hcount|]. split.
      * intros [|p] r Hp; simpl in Hp.
        { injection Hp as <-. split; [done|]. rewrite Nat.sub_diag, Nat.add_0_r.
          by exists n. }
        destruct (Hlook p r Hp) as (Hle & n' & Hn' & Hns').
        split; [lia|]. exists n'.
        replace (r - i)%nat with (S (r - S i)) by lia.
        replace (j + S p)%nat with (S j + p)%nat by lia. done.
      * intros [|p] [|q] r r' Hpq Hp Hq; simpl in Hp, Hq; try lia.
        { injection Hp as <-. destruct (Hlook q r' Hq) as [Hle _]. lia. }
        apply (Hsorted p q); [lia|done|done].
    + destruct (prepare current nodes (S i) j) as [ns' es'] eqn:Hrec.
      injection Hprep as <- <-.
      destruct (IH _ _ _ _ Hrec) as (Hlen & Hcount & Hlook & Hsorted).
      rewrite filter_cons_False by done. simpl.
      split; [by rewrite Hlen|]. split; [done|]. split; [|done].
      intros p r Hp.
      destruct (Hlook p r Hp) as (Hle & n' & Hn' & Hns').
      split; [lia|]. exists n'.
      replace (r - i)%nat with (S (r - S i)) by lia. done.
Qed.

(** What [render] leaves behind on a container with at least one child
    node. *)
Lemma render_spec (now : Z) (w : world) :
  childNodes (el w) ≠ [] →
  let w0 := _initCurrent w in
  let pr := prepare (_current w0) (childNodes (el w)) 0 0 in
  _current (render now w) = _current w0 ∧
  _elements (render now w) = pr.2 ∧
  childNodes (el (render now w)) = pr.1 ∧
  cfg (render now w) = cfg w ∧
  jar (render now w) = jar w ∧
  pending (render now w) = pending w ++ [Timeout (schedule_delay (cfg w) now)] ∧
  calls (render now w) =
    calls w0 ++ [Call_setTimeout (schedule_delay (cfg w) now)].
Proof.
  intros Hne w0 pr. unfold render.
  destruct (childNodes (el w)) as [|n0 rest] eqn:Hnodes; [done|].
  change (negb (length (n0 :: rest) =? 0)%nat) with true. cbv iota.
  fold w0. destruct (_initCurrent_frame w) as (He & Hel & Hcfg & Hjar & Hp & Hthis).
  fold w0 in He, Hel, Hcfg, Hjar, Hp, Hthis.
  subst pr. destruct (prepare (_current w0) (n0 :: rest) 0 0) as [ns es].
  simpl.
  destruct (negb (css_truthy (ctr_style (el w) !! "position")) ||
            css_is (ctr_style (el w) !! "position") "static"); simpl;
    rewrite ?Hcfg, ?Hjar, ?Hp; done.
Qed.

Lemma render_elements (now : Z) (w : world) :
  childNodes (el w) ≠ [] →
  let w' := render now w in
  let current := _current (_initCurrent w) in
  elements_ok w' = true ∧
  length (_elements w') = length (element_children (el w)) ∧
  ∀ p, (p < length (_elements w'))%nat →
    ∃ s, elem_style w' p = Some s ∧
      if Js.strict_eq (Js.of_nat p) current
      then shown s = true else concealed s = true.
Proof.
  intros Hne w' current.
  destruct (render_spec now w Hne) as (_ & He & Hnodes & _).
  fold w' current in He, Hnodes.
  destruct (prepare current (childNodes (el w)) 0 0) as [ns es] eqn:Hprep.
  simpl in He, Hnodes.
  destruct (prepare_spec _ _ _ _ _ _ Hprep) as (Hlen & Hcount & Hlook & Hsorted).
  split; [|split].
  - apply elements_ok_spec. rewrite He, Hnodes. split.
    + apply NoDup_alt. intros p q r Hp Hq.
      destruct (Nat.lt_trichotomy p q) as [Hlt|[Heq|Hlt]]; [|done|].
      * pose proof (Hsorted _ _ _ _ Hlt Hp Hq). lia.
      * pose proof (Hsorted _ _ _ _ Hlt Hq Hp). lia.
    + intros p r Hp. destruct (Hlook p r Hp) as (_ & n & _ & Hns).
      rewrite Nat.sub_0_r in Hns. by apply lookup_lt_Some in Hns.
  - by rewrite He.
  - rewrite He. intros p Hp.
    destruct (lookup_lt_is_Some_2 _ _ Hp) as [r Hr].
    destruct (Hlook p r Hr) as (_ & n & _ & Hns).
    rewrite Nat.sub_0_r in Hns. simpl in Hns.
    rewrite elem_style_eq, He, Hr, Hnodes, Hns. simpl.
    eexists; split; [done|]. apply prepare_node_style.
Qed.

Lemma truthy_of_Z (k : Z) : Js.truthy (Js.of_Z k) = negb (k =? 0).
Proof.
  unfold Js.truthy, Js.of_Z. change 0%Q with (inject_Z 0).
  by rewrite Qeq_bool_inject_Z.
Qed.

Lemma _initCurrent_stored (w : world) (k : Z) :
  cookie_persist (cfg w) = true →
  Cookie_getSub (jar w) (cookie_name (cfg w)) CURRENT = Some (Js.of_Z k) →
  _current (_initCurrent w) = if k =? 0 then _current w else Js.of_Z k.
Proof.
  intros Hp Hk. unfold _initCurrent. rewrite Hp, Hk, truthy_of_Z.
  by destruct (k =? 0).
Qed.

Lemma _advanceCurrent_stored (w : world) :
  cookie_persist (cfg w) = true →
  Cookie_getSub (jar (_advanceCurrent w)) (cookie_name (cfg w)) CURRENT =
    Some (_current (_advanceCurrent w)).
Proof.
  intros Hp. unfold _advanceCurrent, Cookie_getSub. simpl. rewrite Hp. simpl.
  by rewrite !lookup_insert_eq.
Qed.

Lemma render_empty (now : Z) (w : world) :
  childNodes (el w) = [] → render now w = w.
Proof. intros H. unfold render. by rewrite H. Qed.

(** A fresh widget without persistence starts idle at element 0. *)
Lemma render_idle (now : Z) (ref : nat) (ctr : container) (c : config)
    (cookies : gmap string (gmap string Js.number)) :
  cookie_persist c = false →
  (1 ≤ length (element_children ctr))%nat →
  elements_ok (render now (ElementRotator ref ctr c cookies)) = true ∧
  length (_elements (render now (ElementRotator ref ctr c cookies))) =
    length (element_children ctr) ∧
  _current (render now (ElementRotator ref ctr c cookies)) = Js.of_nat 0 ∧
  pending (render now (ElementRotator ref ctr c cookies)) =
    [Timeout (schedule_delay c now)] ∧
  idle_at 0 (render now (ElementRotator ref ctr c cookies)) = true.
Proof.
  intros Hp HN. set (w0 := ElementRotator ref ctr c cookies).
  assert (Hne : childNodes (el w0) ≠ []).
  { simpl. intros E. unfold element_children in HN. rewrite E in HN.
    simpl in HN. lia. }
  assert (Hinit : _initCurrent w0 = w0).
  { unfold _initCurrent. simpl. by rewrite Hp. }
  destruct (render_spec now w0 Hne) as (Hcur & _ & _ & _ & _ & Hpend & _).
  destruct (render_elements now w0 Hne) as (Hok & Hlen & Hsty).
  rewrite Hinit in Hcur, Hsty. change (_current w0) with (Js.of_Z 0) in Hsty.
  repeat (split; [done|]).
  apply idle_at_spec. intros i Hi. destruct (Hsty i Hi) as (s & Hs & Hs').
  exists s. split; [done|].
  unfold Js.of_nat in Hs'. rewrite strict_eq_of_Z in Hs'.
  case_decide as E.
  - subst i. done.
  - destruct (Z.eqb_spec (Z.of_nat i) 0); [lia|done].
Qed.

(** The Idle condition along a run: from a world that is idle at its
    current index, every transition ends idle at the next index. *)
Lemma idle_along_run (n : nat) :
  ∀ (w : world) (c : nat) (t : Js.number) (ticks : list Z),
  elements_ok w = true →
  (2 ≤ length (_elements w))%nat →
  (c < length (_elements w))%nat →
  _current w = Js.of_nat c →
  pending w = [Timeout t] →
  idle_at c w = true →
  length ticks = (2 * n)%nat →
  ∃ w', steps ticks w = Some w' ∧
    _elements w' = _elements w ∧
    _current w' = Js.of_nat ((c + n) mod length (_elements w)) ∧
    idle_at ((c + n) mod length (_elements w)) w' = true ∧
    exactly_one_shown w'.
Proof.
  induction n as [|n IH]; intros w c t ticks Hok HN Hc Hcur Hp Hidle Hlen.
  - destruct ticks; [|done]. exists w.
    rewrite Nat.add_0_r, Nat.mod_small by done.
    repeat (split; [done|]). by apply (idle_at_exactly_one c).
  - destruct ticks as [|now1 [|now2 ticks]]; simpl in Hlen; try lia.
    destruct (transition_spec w c t now1 now2 Hok Hc Hcur Hp)
      as (w2 & Hsteps & He & Hcur2 & _ & _ & Hp2 & Hok2 & Hsty).
    set (c' := ((c + 1) mod length (_elements w))%nat) in *.
    assert (Hc' : (c' < length (_elements w))%nat)
      by (apply Nat.mod_upper_bound; lia).
    assert (Hidle2 : idle_at c' w2 = true).
    { apply (idle_at_cycle_style w w2 c c'); try done.
      intros E. by apply (mod_succ_neq c (length (_elements w))). }
    destruct (IH w2 c' (schedule_delay (cfg w) now2) ticks)
      as (w' & Hrun & He' & Hcur' & Hidle' & Hone);
      try (rewrite ?He; done); [lia|].
    exists w'. rewrite He in He', Hcur', Hidle'.
    assert (E : ((c' + n) mod length (_elements w) =
                 (c + S n) mod length (_elements w))%nat).
    { unfold c'. rewrite Nat.Div0.add_mod_idemp_l. f_equal. lia. }
    rewrite E in Hcur', Hidle'.
    split; [|done].
    simpl in Hsteps |- *. destruct (step now1 w) as [w1|]; [|done].
    destruct (step now2 w1) as [w2'|]; [|done]. by injection Hsteps as ->.
Qed.

(** From [render] on: a fresh widget without persistence over at least two
    element children has exactly one element shown whenever it is back to
    idle, after any number of transitions. *)
Corollary idle_from_render (n : nat) (now : Z) (ref : nat) (ctr : container)
    (c : config) (cookies : gmap string (gmap string Js.number))
    (ticks : list Z) :
  cookie_persist c = false →
  (2 ≤ length (element_children ctr))%nat →
  length ticks = (2 * n)%nat →
  ∃ w', steps ticks (render now (ElementRotator ref ctr c cookies)) = Some w' ∧
    _current w' = Js.of_nat (n mod length (element_children ctr)) ∧
    exactly_one_shown w'.
Proof.
  intros Hp HN Hlen.
  destruct (render_idle now ref ctr c cookies Hp)
    as (Hok & Hlen' & Hcur & Hpend & Hidle); [lia|].
  destruct (idle_along_run n _ 0 (schedule_delay c now) ticks Hok)
    as (w' & Hrun & _ & Hcur' & _ & Hone);
    try done; try (rewrite Hlen'; lia).
  exists w'. rewrite Hlen' in Hcur'. done.
Qed.

(** * Main results *)

(** C1. With at least two elements, a transition started from a world that
    is idle at its current index [c] (element [c] shown, all others
    concealed, the timer pending) ends, once the fade has completed and its
    handler has run, with exactly one element shown and all others
    concealed: the shown element is the new current index
    [(c + 1) mod N].  The handler that ran is the wrap one when that index
    is 0 and the non-wrap one otherwise, and the timer is armed again. *)
Theorem idle_restored_after_transition
    (w : world) (c : nat) (t : Js.number) (now1 now2 : Z) :
  elements_ok w = true →
  (2 ≤ length (_elements w))%nat →
  (c < length (_elements w))%nat →
  _current w = Js.of_nat c →
  pending w = [Timeout t] →
  idle_at c w = true →
  let n := ((c + 1) mod length (_elements w))%nat in
  ∃ w1 w2 anim from current t',
    step now1 w = Some w1 ∧
    pending w1 = [Tween anim from (if decide (n = 0%nat)
                                   then FadeDownComplete current
                                   else FadeUpComplete current)] ∧
    step now2 w1 = Some w2 ∧
    pending w2 = [Timeout t'] ∧
    _elements w2 = _elements w ∧
    _current w2 = Js.of_nat n ∧
    idle_at n w2 = true ∧
    exactly_one_shown w2.
Proof.
  intros Hok HN Hc Hcur Hpend Hidle n.
  destruct (initiate_spec w c t now1 Hok Hc Hcur Hpend)
    as (rc & rn & w1 & _ & _ & Hstep1 & _ & _ & _ & _ & _ & Hp1).
  fold n in Hp1.
  destruct (transition_spec w c t now1 now2 Hok Hc Hcur Hpend)
    as (w2 & Hsteps & He & Hcur2 & _ & _ & Hp2 & _ & Hsty).
  fold n in Hcur2, Hsty.
  simpl in Hsteps. rewrite Hstep1 in Hsteps.
  assert (Hstep2 : step now2 w1 = Some w2) by (by destruct (step now2 w1)).
  assert (Hidle2 : idle_at n w2 = true).
  { apply (idle_at_cycle_style w w2 c n); try done.
    intros E. by apply (mod_succ_neq c (length (_elements w))). }
  assert (Hone : exactly_one_shown w2).
  { apply (idle_at_exactly_one n); [|done].
    rewrite He. apply Nat.mod_upper_bound. lia. }
  exists w1, w2. case_decide; do 4 eexists; by repeat (split; [done|]).
Qed.

Lemma idle_restored_after_transition_witness :
  ∃ w2, steps [5000; 6000] resumed3 = Some w2 ∧
        _current w2 = Js.of_Z 0 ∧ exactly_one_shown w2.
Proof.
  destruct (idle_restored_after_transition resumed3 2 (Js.Num 5000) 5000 6000)
    as (w1 & w2 & anim & from & current & t' & H1 & _ & H2 & _ & _ & Hc & _ & Hone);
    [by_compute..|].
  exists w2. split; [by apply (steps_two _ _ _ w1)|]. by split.
Defined.

(** C2.  For a positive [show_duration] and
    [d = 1000 * show_duration]: with [clock_sync] on and a clock reading
    [t >= 0], the delay is [d - (t mod d)] and lies in (0, d], and it is
    3000 for [d = 5000] and [t = 12000]; with [clock_sync] off the delay is
    [d] whatever the clock reads. *)
Theorem schedule_delay_spec (c : config) (t : Z) :
  (0 < show_duration c)%Q →
  let d := (1000 * show_duration c)%Q in
  ∃ q, schedule_delay c t = Js.Num q ∧
    if clock_sync c then
      0 <= t →
      (q == d - spec_mod (inject_Z t) d)%Q ∧ (0 < q)%Q ∧ (q <= d)%Q ∧
      ((show_duration c == 5)%Q → t = 12000 → q = 3000%Q)
    else (q == d)%Q.
Proof.
  intros Hsd d. unfold schedule_delay.
  destruct (mul_1000_pos _ Hsd) as (d' & -> & Hd' & Hpos).
  assert (Hdd : (d == 1000 * show_duration c)%Q) by reflexivity.
  clearbody d. rewrite <- Hdd in Hd'.
  destruct (clock_sync c); [|by eexists].
  assert (E0 : Qeq_bool d' 0 = false).
  { destruct (Qeq_bool d' 0) eqn:E0; [|done].
    apply Qeq_bool_eq in E0. rewrite E0 in Hpos. by apply Qlt_irrefl in Hpos. }
  destruct (Z_le_gt_dec 0 t) as [Ht|Ht].
  2:{ unfold Js.rem, Js.of_Z. rewrite E0. eexists; split; [reflexivity|lia]. }
  assert (Ht' : (0 <= inject_Z t)%Q) by (unfold Qle; simpl; lia).
  destruct (rem_nonneg _ _ Ht' Hpos) as (r & Hr & Er).
  unfold Js.of_Z. rewrite Hr. simpl. eexists; split; [reflexivity|]. intros _.
  pose proof (spec_mod_comp (inject_Z t) d d' Hd') as Em.
  pose proof (spec_mod_bounds (inject_Z t) d' Hpos) as [Hlo Hhi].
  assert (Eq : (Qred (d' - r) == d - spec_mod (inject_Z t) d)%Q).
  { rewrite Qred_correct, Er, Em, Hd'. reflexivity. }
  assert (Hlo' : (0 <= spec_mod (inject_Z t) d)%Q) by (by rewrite <- Em).
  assert (Hhi' : (spec_mod (inject_Z t) d < d)%Q) by (by rewrite <- Em, <- Hd').
  split; [done|]. split; [rewrite Eq; lra|]. split; [rewrite Eq; lra|].
  intros E5 ->.
  transitivity (Qred 3000); [|reflexivity].
  apply Qred_complete. rewrite Qred_correct in Eq. rewrite Eq.
  assert (E5000 : (d == 5000)%Q) by (rewrite Hdd, E5; reflexivity).
  rewrite (spec_mod_comp _ _ _ E5000), E5000. reflexivity.
Qed.

Lemma schedule_delay_spec_witness :
  ∃ q, schedule_delay sync5 12000 = Js.Num q ∧ q = 3000%Q.
Proof.
  destruct (schedule_delay_spec sync5 12000) as (q & Hq & H); [reflexivity|].
  exists q. split; [exact Hq|]. simpl in H.
  destruct H as (_ & _ & _ & H); [lia|]. apply H; reflexivity.
Defined.

(** With [show_duration = 5] and the clock on a multiple of 5000 ms the
    delay is 5000, which is not below [d]: the delay does not lie in
    [0, d). *)
Lemma schedule_delay_below_d_counterexample :
  ¬ (∃ q, schedule_delay sync5 10000 = Js.Num q ∧
          (0 <= q)%Q ∧ (q < 1000 * show_duration sync5)%Q).
Proof.
  intros (q & Hq & _ & Hlt). vm_compute in Hq. injection Hq as <-.
  vm_compute in Hlt. discriminate.
Qed.

(** C3. With [N >= 1] elements and a current index [c] in [0, N),
    [_advanceCurrent] sets the current index to [(c + 1) mod N], and [N]
    calls in a row bring it back to [c]. *)
Theorem advanceCurrent_index_arithmetic (w : world) (c : nat) :
  (1 ≤ length (_elements w))%nat →
  (c < length (_elements w))%nat →
  _current w = Js.of_nat c →
  _current (_advanceCurrent w) = Js.of_nat ((c + 1) mod length (_elements w)) ∧
  _current (Nat.iter (length (_elements w)) _advanceCurrent w) = Js.of_nat c.
Proof.
  intros HN Hc Hcur.
  assert (Hiter : ∀ n,
    _elements (Nat.iter n _advanceCurrent w) = _elements w ∧
    _current (Nat.iter n _advanceCurrent w) =
      Js.of_nat ((c + n) mod length (_elements w))).
  { induction n as [|n [IHe IHc]]; simpl.
    - split; [done|]. rewrite Hcur, Nat.add_0_r, Nat.mod_small; done.
    - rewrite _advanceCurrent_elements, _advanceCurrent_current, IHe, IHc.
      split; [done|]. rewrite advance_index by done. f_equal.
      rewrite Nat.Div0.add_mod_idemp_l by lia. f_equal. lia. }
  split.
  - rewrite _advanceCurrent_current, Hcur. by apply advance_index.
  - destruct (Hiter (length (_elements w))) as [_ ->]. f_equal.
    rewrite <- (Nat.mul_1_l (length (_elements w))) at 1.
    rewrite Nat.Div0.mod_add. by apply Nat.mod_small.
Qed.

Lemma advanceCurrent_index_arithmetic_witness :
  _current (_advanceCurrent resumed3) = Js.of_Z 0 ∧
  _current (Nat.iter 3 _advanceCurrent resumed3) = Js.of_Z 2.
Proof.
  apply (advanceCurrent_index_arithmetic resumed3 2);
    by_compute.
Defined.

(** C4. When an instance with persistence on has advanced to index [k] (so
    that [_advanceCurrent] stored it under the cookie name), an instance
    constructed afterwards with persistence on and the same cookie name
    finds [k] in the store, and [_initCurrent], hence [render] on a
    container with a child node, sets its current index to [k]. *)
Theorem persisted_index_round_trip
    (prior : world) (k : nat) (ref : nat) (ctr : container) (c : config)
    (now : Z) :
  cookie_persist (cfg prior) = true →
  (1 ≤ length (_elements prior))%nat →
  (k < length (_elements prior))%nat →
  _current (_advanceCurrent prior) = Js.of_nat k →
  cookie_persist c = true →
  cookie_name c = cookie_name (cfg prior) →
  let fresh := ElementRotator ref ctr c (jar (_advanceCurrent prior)) in
  Cookie_getSub (jar fresh) (cookie_name c) CURRENT = Some (Js.of_nat k) ∧
  _current (_initCurrent fresh) = Js.of_nat k ∧
  (childNodes ctr ≠ [] → _current (render now fresh) = Js.of_nat k).
Proof.
  intros Hp _ _ Hk Hpc Hname fresh.
  assert (Hstored : Cookie_getSub (jar fresh) (cookie_name c) CURRENT =
                    Some (Js.of_nat k)).
  { unfold fresh; simpl. rewrite Hname, <- Hk. by apply _advanceCurrent_stored. }
  assert (Hinit : _current (_initCurrent fresh) = Js.of_nat k).
  { rewrite (_initCurrent_stored fresh (Z.of_nat k)); [|done|done].
    destruct (Z.eqb_spec (Z.of_nat k) 0) as [E|E]; [|done].
    unfold Js.of_nat. by rewrite E. }
  split; [done|]. split; [done|].
  intros Hne. destruct (render_spec now fresh Hne) as (-> & _). done.
Qed.

Lemma persisted_index_round_trip_witness :
  _current (_initCurrent next_visit) = Js.of_Z 1 ∧
  _current (render 9000 next_visit) = Js.of_Z 1.
Proof.
  destruct (persisted_index_round_trip first_visit 1 2 banner3 persist5 9000)
    as (_ & Hinit & Hrender); [by_compute..|].
  split; [exact Hinit|]. by apply Hrender.
Defined.

(** C5. With three elements, idle at index 2: when the timer fires,
    [_advance] makes element 0 visible and opaque before it starts the
    tween (in [w0], the world [animate] is called on), starts a tween of
    element 2's opacity from 1 to 0 over [fade_duration], and sets the
    current index to 0; elements 0 and 2 are then both shown.  When the
    tween completes, element 2 is hidden: element 0 is shown and elements
    1 and 2 are concealed. *)
Theorem wrap_boundary_scenario (w : world) (t : Js.number) (now1 now2 : Z) :
  elements_ok w = true →
  length (_elements w) = 3%nat →
  _current w = Js.of_Z 2 →
  pending w = [Timeout t] →
  idle_at 2 w = true →
  ∃ r0 r2 w0 w1 w2 t',
    _elements w !! 0%nat = Some r0 ∧ _elements w !! 2%nat = Some r2 ∧
    step now1 w =
      Some (animate {| anim_el := Some r2; anim_attr := "opacity";
                       anim_to := Js.of_Z 0;
                       anim_duration := fade_duration (cfg w) |}
                    (FadeDownComplete (Some r2)) w0) ∧
    shown <$> elem_style w0 0 = Some true ∧
    step now1 w = Some w1 ∧
    pending w1 =
      [Tween {| anim_el := Some r2; anim_attr := "opacity";
                anim_to := Js.of_Z 0;
                anim_duration := fade_duration (cfg w) |}
             (Some (CNum (Js.of_Z 1)))
             (FadeDownComplete (Some r2))] ∧
    shown <$> elem_style w1 0 = Some true ∧
    shown <$> elem_style w1 2 = Some true ∧
    concealed <$> elem_style w1 1 = Some true ∧
    _current w1 = Js.of_Z 0 ∧
    step now2 w1 = Some w2 ∧
    pending w2 = [Timeout t'] ∧
    shown <$> elem_style w2 0 = Some true ∧
    concealed <$> elem_style w2 1 = Some true ∧
    concealed <$> elem_style w2 2 = Some true.
Proof.
  intros Hok HN Hcur Hpend Hidle.
  assert (Hc : (2 < length (_elements w))%nat) by lia.
  pose proof Hok as [Hnd _]%elements_ok_spec.
  destruct (initiate_spec w 2 t now1 Hok Hc Hcur Hpend)
    as (r2 & r0 & w1 & Hr2 & Hr0 & Hstep1 & _ & Hcur1 & _ & _ & Hsty1 & Hp1).
  destruct (transition_spec w 2 t now1 now2 Hok Hc Hcur Hpend)
    as (w2 & Hsteps & He & Hcur2 & _ & _ & Hp2 & _ & Hsty2).
  simpl in Hsteps. rewrite Hstep1 in Hsteps.
  assert (Hstep2 : step now2 w1 = Some w2) by (by destruct (step now2 w1)).
  rewrite HN in *. change ((2 + 1) mod 3)%nat with 0%nat in *.
  pose proof (proj1 (idle_at_spec 2 w) Hidle) as Hi. rewrite HN in Hi.
  destruct (Hi 0%nat) as (s0 & Hs0 & Hc0); [lia|].
  destruct (Hi 1%nat) as (s1 & Hs1 & Hc1); [lia|].
  destruct (Hi 2%nat) as (s2 & Hs2 & Hc2); [lia|].
  simpl in Hc0, Hc1, Hc2.
  set (wv := setStyle (Some r0) "opacity" (CNum (Js.of_Z 1))
               (setStyle (Some r0) "visibility" (CStr "visible")
                  (set_pending [] w))).
  assert (Hpre : step now1 w =
    Some (animate (fade_down (cfg w) (Some r2)) (FadeDownComplete (Some r2))
            (_advanceCurrent wv))).
  { rewrite (step_pending _ _ _ _ Hpend). simpl.
    rewrite (_advance_in_range _ 2) by (simpl; done || lia). simpl.
    rewrite HN. change (3 mod 3)%nat with 0%nat. by rewrite Hr0, Hr2. }
  assert (Hshown : shown <$> elem_style (_advanceCurrent wv) 0 = Some true).
  { rewrite (elem_style_frame _ wv)
      by (apply _advanceCurrent_elements || apply _advanceCurrent_el).
    unfold wv.
    rewrite (elem_style_setStyle _ 0), (elem_style_setStyle _ 0) by done.
    rewrite (elem_style_frame _ w), Hs0 by done. simpl. by rewrite shown_set. }
  exists r0, r2, (_advanceCurrent wv), w1, w2. eexists.
  rewrite !Hsty1, !Hsty2, Hs0, Hs1, Hs2 in *. simpl in *.
  unfold initiate_style, cycle_style; simpl.
  rewrite shown_set, concealed_set, Hc1, Hc2.
  split; [done|]. split; [done|]. split; [exact Hpre|]. split; [exact Hshown|].
  repeat (split; [done|]). split; [|done].
  rewrite Hp1. unfold fade_down. do 2 f_equal.
  unfold shown in Hc2. apply andb_true_iff in Hc2 as [_ Hop].
  by apply bool_decide_eq_true in Hop.
Qed.

Lemma wrap_boundary_scenario_witness :
  ∃ w1 w2,
    step 5000 resumed3 = Some w1 ∧ step 6000 w1 = Some w2 ∧
    shown <$> elem_style w1 0 = Some true ∧
    shown <$> elem_style w2 0 = Some true ∧
    concealed <$> elem_style w2 2 = Some true.
Proof.
  destruct (wrap_boundary_scenario resumed3 (Js.Num 5000) 5000 6000)
    as (r0 & r2 & w0 & w1 & w2 & t' & _ & _ & _ & _ & H1 & _ & Hs0 & _ & _ &
        _ & H2 & _ & Hs0' & _ & Hs2');
    [by_compute..|].
  by exists w1, w2.
Defined.

(** C6. [_advance] moves the current index to the next one and, with
    persistence on, writes it to the cookie store before it starts the
    tween: in the world it returns the tween is pending, the current index
    and the stored value are already the next index, and the write comes
    before [animate] among the calls.  The completion of that tween changes
    neither the current index nor the cookie store; it only arms the
    timer.  From an index [c] in [0, N) the next index is
    [(c + 1) mod N]. *)
Theorem index_advances_at_initiation (w : world) :
  let idxNext := Js.rem (Js.add (_current w) (Js.of_Z 1))
                        (Js.of_nat (length (_elements w))) in
  let w1 := _advance w in
  _current w1 = idxNext ∧
  (if cookie_persist (cfg w)
   then Cookie_getSub (jar w1) (cookie_name (cfg w)) CURRENT = Some idxNext
   else jar w1 = jar w) ∧
  (∃ anim from h,
     pending w1 = pending w ++ [Tween anim from h] ∧
     calls w1 =
       calls w ++
       (if cookie_persist (cfg w)
        then [Call_setSub (cookie_name (cfg w)) CURRENT idxNext
                (cookie_settings (cfg w))]
        else []) ++
       [Call_animate anim] ∧
     ∀ (now : Z) (w' : world),
       let w2 := run_task now (Tween anim from h) w' in
       _current w2 = _current w' ∧ jar w2 = jar w' ∧
       calls w2 = calls w' ++ [Call_setTimeout (schedule_delay (cfg w') now)]) ∧
  (∀ c : nat, (c < length (_elements w))%nat → _current w = Js.of_nat c →
     _current w1 = Js.of_nat ((c + 1) mod length (_elements w))).
Proof.
  intros idxNext w1.
  assert (Hcur1 : _current w1 = idxNext).
  { unfold w1, _advance, animate, _advanceCurrent. fold idxNext.
    destruct (negb _); simpl; by destruct (cookie_persist (cfg w)). }
  split; [done|]. split; [|split].
  - unfold w1, _advance, animate, _advanceCurrent, Cookie_getSub. fold idxNext.
    destruct (negb _); simpl; destruct (cookie_persist (cfg w)); simpl;
      by rewrite ?lookup_insert_eq.
  - unfold w1, _advance, animate, _advanceCurrent. fold idxNext.
    destruct (negb _); simpl; destruct (cookie_persist (cfg w)); simpl;
      do 3 eexists; (split; [reflexivity|]);
      (split; [by rewrite <- ?app_assoc|]);
      intros now w'; simpl; done.
  - intros c Hc Hcur. rewrite Hcur1. unfold idxNext.
    rewrite Hcur. apply advance_index. lia.
Qed.

Lemma index_advances_at_initiation_witness :
  _current (_advance resumed3) = Js.of_Z 0 ∧
  Cookie_getSub (jar (_advance resumed3)) "elementrotator" CURRENT =
    Some (Js.of_Z 0).
Proof.
  destruct (index_advances_at_initiation resumed3) as (_ & Hjar & _ & Hc).
  split; [|exact Hjar].
  apply (Hc 2%nat); by_compute.
Defined.

(** C7, at a container whose only child node is a text node, with
    persistence on: there is no element child and [_elements] stays empty,
    yet [render] reads the cookie store, puts the container in relative
    position and arms the timer; when the timer fires, [_advance] computes
    the index [NaN] and stores it. *)
Theorem render_schedules_without_elements :
  element_children blank = [] ∧
  _elements blank_world = [] ∧
  calls blank_world = [Call_getSub "elementrotator" "current";
                       Call_setTimeout (Js.of_Z 5000)] ∧
  pending blank_world = [Timeout (Js.of_Z 5000)] ∧
  ctr_style (el blank_world) !! "position" = Some (CStr "relative") ∧
  ∃ w1, step 5000 blank_world = Some w1 ∧
    _current w1 = Js.NaN ∧
    Cookie_getSub (jar w1) "elementrotator" CURRENT = Some Js.NaN.
Proof.
  do 5 (split; [by_compute|]).
  eexists. split; [vm_compute; reflexivity|]. split; by_compute.
Qed.

(** With a single element, current index 0 and the timer pending, the host
    can run callbacks for ever: after any number of them the current index
    is still 0, after an even number the timer is armed again, and after an
    odd number the pending tween and its completion handler both target
    the single element. *)
Theorem single_element_cycle (w : world) (r0 : nat) (t : Js.number) :
  elements_ok w = true →
  _elements w = [r0] →
  _current w = Js.of_Z 0 →
  pending w = [Timeout t] →
  ∀ ticks : list Z,
  ∃ w', steps ticks w = Some w' ∧
    _elements w' = [r0] ∧
    _current w' = Js.of_Z 0 ∧
    if Nat.even (length ticks) then ∃ t', pending w' = [Timeout t']
    else ∃ from, pending w' =
           [Tween {| anim_el := Some r0; anim_attr := "opacity";
                     anim_to := Js.of_Z 0;
                     anim_duration := fade_duration (cfg w) |}
                  from (FadeDownComplete (Some r0))].
Proof.
  intros Hok He Hcur Hp ticks.
  assert (Hph : single_phase (cfg w) r0 true w).
  { unfold single_phase. repeat (split; [done|]). by eexists. }
  destruct (single_phase_steps (cfg w) r0 ticks true w Hph)
    as (w' & Hsteps & _ & He' & Hcur' & _ & Hp').
  exists w'. repeat (split; [done|]).
  by destruct (Nat.even (length ticks)).
Qed.

Lemma single_element_cycle_witness :
  ∃ w', steps [5000; 6000; 11000] started1 = Some w' ∧
        _current w' = Js.of_Z 0 ∧
        ∃ from, pending w' =
          [Tween {| anim_el := Some 1%nat; anim_attr := "opacity";
                    anim_to := Js.of_Z 0; anim_duration := 1 |}
                 from (FadeDownComplete (Some 1%nat))].
Proof.
  destruct (single_element_cycle started1 1 (Js.Num 5000))
    with (ticks := [5000; 6000; 11000])
    as (w' & Hsteps & _ & Hcur & Hp); [by_compute..|].
  exists w'. by repeat split.
Defined.

(** C8, at a container with a single element child, just rendered: the
    element is shown.  When the timer fires, [_advance] takes the wrap
    branch with the element as both the outgoing and the incoming one and
    starts a tween of its opacity from 1 to 0; when the tween completes the
    handler hides it.  The current index is still 0 and the timer is armed
    again, but the advance was not a no-op: the only element is now
    concealed. *)
Theorem single_element_hidden_by_advance :
  length (element_children banner1) = 1%nat ∧
  _elements started1 = [1%nat] ∧
  shown <$> elem_style started1 0 = Some true ∧
  ∃ w1 w2,
    step 5000 started1 = Some w1 ∧
    pending w1 =
      [Tween {| anim_el := Some 1%nat; anim_attr := "opacity";
                anim_to := Js.of_Z 0; anim_duration := 1 |}
             (Some (CNum (Js.of_Z 1)))
             (FadeDownComplete (Some 1%nat))] ∧
    step 6000 w1 = Some w2 ∧
    _current w2 = Js.of_Z 0 ∧
    pending w2 = [Timeout (Js.of_Z 5000)] ∧
    shown <$> elem_style w2 0 = Some false ∧
    concealed <$> elem_style w2 0 = Some true ∧
    elem_style w2 0 ≠ elem_style started1 0.
Proof.
  do 3 (split; [by_compute|]).
  eexists _, _. split; [vm_compute; reflexivity|].
  split; [by_compute|]. split; [vm_compute; reflexivity|].
  do 4 (split; [by_compute|]).
  intros E. apply (f_equal (fmap shown)) in E. vm_compute in E. discriminate.
Qed.

(** C9. The check [this !== 1] holds for every widget instance, so on a
    container with at least one child node [render] arms the timer, and
    a second [render] arms a second one. *)
Theorem render_always_schedules (now : Z) (w : world) :
  Js.strict_neq_value (Js.VObject (this_ref w)) (Js.VNumber (Js.of_Z 1)) = true ∧
  (childNodes (el w) ≠ [] →
   pending (render now w) =
     pending w ++ [Timeout (schedule_delay (cfg w) now)] ∧
   calls (render now w) =
     calls (_initCurrent w) ++ [Call_setTimeout (schedule_delay (cfg w) now)] ∧
   ∀ now', pending (render now' (render now w)) =
     pending w ++ [Timeout (schedule_delay (cfg w) now);
                   Timeout (schedule_delay (cfg w) now')]).
Proof.
  split; [done|]. intros Hne.
  destruct (render_spec now w Hne) as (_ & _ & Hnodes & Hcfg & _ & Hp & Hcalls).
  split; [done|]. split; [done|]. intros now'.
  assert (Hne' : childNodes (el (render now w)) ≠ []).
  { rewrite Hnodes. intros E.
    destruct (prepare _ (childNodes (el w)) 0 0) as [ns es] eqn:Hprep.
    destruct (prepare_spec _ _ _ _ _ _ Hprep) as (Hlen & _). simpl in E.
    rewrite E in Hlen. destruct (childNodes (el w)); done. }
  destruct (render_spec now' _ Hne') as (_ & _ & _ & _ & _ & Hp' & _).
  rewrite Hp', Hp, Hcfg, <- app_assoc. done.
Qed.

Lemma render_always_schedules_witness :
  pending (render 7000 started3) =
    [Timeout (Js.of_Z 5000); Timeout (Js.of_Z 5000)].
Proof.
  destruct (render_always_schedules 0 (ElementRotator 1 banner3 _CONFIG_DEFAULTS ∅))
    as [_ H].
  destruct H as (_ & _ & H); [done|]. exact (H 7000).
Defined.

(** C10.  With persistence on, a stored integer [k] not below
    the number of element children, and a container with at least one
    child node, [render] takes [k] as the current index as it is, and no
    element is shown: every element is concealed. *)
Theorem out_of_range_start_shows_nothing
    (ref : nat) (ctr : container) (c : config)
    (cookies : gmap string (gmap string Js.number)) (k : Z) (now : Z) :
  childNodes ctr ≠ [] →
  cookie_persist c = true →
  Cookie_getSub cookies (cookie_name c) CURRENT = Some (Js.of_Z k) →
  Z.of_nat (length (element_children ctr)) <= k →
  let w := render now (ElementRotator ref ctr c cookies) in
  _current w = Js.of_Z k ∧
  length (_elements w) = length (element_children ctr) ∧
  none_shown w ∧
  ¬ exactly_one_shown w.
Proof.
  intros Hne Hp Hk HN w. subst w.
  set (w0 := ElementRotator ref ctr c cookies). set (w := render now w0).
  assert (Hinit : _current (_initCurrent w0) = Js.of_Z k).
  { rewrite (_initCurrent_stored w0 k); [|done|done].
    destruct (Z.eqb_spec k 0) as [->|]; done. }
  destruct (render_spec now w0 Hne) as (Hcur & _).
  destruct (render_elements now w0 Hne) as (_ & Hlen & Hsty).
  fold w in Hcur, Hlen, Hsty. rewrite Hinit in Hcur, Hsty.
  change (el w0) with ctr in Hlen.
  assert (Hnone : none_shown w).
  { intros i Hi. destruct (Hsty i Hi) as (s & Hs & Hs').
    unfold Js.of_nat in Hs'. rewrite strict_eq_of_Z in Hs'.
    destruct (Z.eqb_spec (Z.of_nat i) k) as [E|_].
    { lia. }
    exists s. split; [done|]. split; [done|]. by apply concealed_not_shown. }
  split; [done|]. split; [done|]. split; [done|].
  intros (i & Hi & Hex). destruct (Hex i Hi) as (s & Hs & Hs').
  destruct (Hnone i Hi) as (s' & Hs2 & _ & Hns).
  rewrite decide_True in Hs' by done. destruct Hs' as [Hshown _]. congruence.
Qed.

Lemma out_of_range_start_shows_nothing_witness :
  _current overshoot_world = Js.of_Z 7 ∧ none_shown overshoot_world.
Proof.
  destruct (out_of_range_start_shows_nothing 1 banner3 persist5 (stored 7) 7 0)
    as (Hcur & _ & Hnone & _); [by_compute..|].
  split; [exact Hcur | exact Hnone].
Defined.

(** On a container without child nodes [render] returns at once: the stored
    index 3 is not read and the current index stays 0. *)
Lemma out_of_range_start_counterexample :
  cookie_persist persist5 = true ∧
  Cookie_getSub (stored 3) (cookie_name persist5) CURRENT = Some (Js.of_Z 3) ∧
  Z.of_nat (length (element_children empty)) <= 3 ∧
  _current empty_world ≠ Js.of_Z 3 ∧ calls empty_world = [].
Proof.
  split; [by_compute|]. split; [by_compute|]. split; [by_compute|].
  split; by_compute.
Qed.

(** * Further properties *)

Lemma shown_lookup (s : gmap string cssval) :
  shown s = true →
  s !! "visibility" = Some (CStr "visible") ∧
  s !! "opacity" = Some (CNum (Js.of_Z 1)).
Proof.
  unfold shown. rewrite andb_true_iff, !bool_decide_eq_true. done.
Qed.

Lemma concealed_lookup (s : gmap string cssval) :
  concealed s = true →
  s !! "visibility" = Some (CStr "hidden") ∧
  s !! "opacity" = Some (CNum (Js.of_Z 0)).
Proof.
  unfold concealed. rewrite andb_true_iff, !bool_decide_eq_true. done.
Qed.

(** X1. Away from the wrap (index [c] with [c + 1 < N], idle at [c]): when
    the timer fires, [_advance] makes element [c + 1] visible with its
    opacity still 0, starts a tween of that opacity from 0 to 1 over
    [fade_duration] and moves the current index to [c + 1], while element
    [c] stays shown; when the tween completes, element [c] is made
    transparent and hidden, the timer is armed again and the widget is idle
    at [c + 1]. *)
Theorem non_wrap_transition
    (w : world) (c : nat) (t : Js.number) (now1 now2 : Z) :
  elements_ok w = true →
  (c + 1 < length (_elements w))%nat →
  _current w = Js.of_nat c →
  pending w = [Timeout t] →
  idle_at c w = true →
  ∃ rc rn w1 w2 t',
    _elements w !! c = Some rc ∧ _elements w !! (c + 1)%nat = Some rn ∧
    step now1 w = Some w1 ∧
    pending w1 =
      [Tween {| anim_el := Some rn; anim_attr := "opacity";
                anim_to := Js.of_Z 1;
                anim_duration := fade_duration (cfg w) |}
             (Some (CNum (Js.of_Z 0)))
             (FadeUpComplete (Some rc))] ∧
    _current w1 = Js.of_nat (c + 1) ∧
    shown <$> elem_style w1 c = Some true ∧
    elem_style w1 (c + 1) ≫= (.!! "visibility") = Some (CStr "visible") ∧
    elem_style w1 (c + 1) ≫= (.!! "opacity") = Some (CNum (Js.of_Z 0)) ∧
    step now2 w1 = Some w2 ∧
    pending w2 = [Timeout t'] ∧
    _current w2 = Js.of_nat (c + 1) ∧
    idle_at (c + 1) w2 = true.
Proof.
  intros Hok HN Hcur Hpend Hidle.
  assert (Hc : (c < length (_elements w))%nat) by lia.
  assert (Hn : ((c + 1) mod length (_elements w) = c + 1)%nat)
    by (by apply Nat.mod_small).
  destruct (initiate_spec w c t now1 Hok Hc Hcur Hpend)
    as (rc & rn & w1 & Hrc & Hrn & Hstep1 & _ & Hcur1 & _ & _ & Hsty1 & Hp1).
  destruct (transition_spec w c t now1 now2 Hok Hc Hcur Hpend)
    as (w2 & Hsteps & He & Hcur2 & _ & _ & Hp2 & _ & Hsty2).
  rewrite Hn in *.
  simpl in Hsteps. rewrite Hstep1 in Hsteps.
  assert (Hstep2 : step now2 w1 = Some w2) by (by destruct (step now2 w1)).
  pose proof (proj1 (idle_at_spec c w) Hidle) as Hi.
  destruct (Hi c Hc) as (sc & Hsc & Hshown).
  destruct (Hi (c + 1)%nat HN) as (sn & Hsn & Hconc).
  rewrite decide_True in Hshown by done.
  rewrite decide_False in Hconc by lia.
  apply concealed_lookup in Hconc as [_ Hop].
  assert (Hidle2 : idle_at (c + 1) w2 = true).
  { apply (idle_at_cycle_style w w2 c (c + 1)); try done. lia. }
  assert (Hs1c : elem_style w1 c = Some sc).
  { rewrite Hsty1, Hsc. unfold initiate_style. simpl.
    by rewrite decide_False by lia. }
  assert (Hs1n : elem_style w1 (c + 1) =
                 Some (<["visibility" := CStr "visible"]> sn)).
  { rewrite Hsty1, Hsn. unfold initiate_style. simpl.
    rewrite decide_True by done. by rewrite decide_False by lia. }
  exists rc, rn, w1, w2. eexists.
  rewrite Hs1c, Hs1n. simpl.
  rewrite lookup_insert_eq, lookup_insert_ne, Hop, Hshown by done.
  repeat (split; [done|]). split; [|done].
  rewrite Hp1, decide_False by lia. rewrite Hs1n. simpl.
  by rewrite lookup_insert_ne, Hop by done.
Qed.

Lemma non_wrap_transition_witness :
  ∃ w1 w2, step 5000 started3 = Some w1 ∧ step 6000 w1 = Some w2 ∧
    shown <$> elem_style w1 0 = Some true ∧ idle_at 1 w2 = true.
Proof.
  destruct (non_wrap_transition started3 0 (Js.Num 5000) 5000 6000)
    as (rc & rn & w1 & w2 & t' & _ & _ & H1 & _ & _ & Hs & _ & _ & H2 & _ & _ & Hi);
    [by_compute..|].
  by exists w1, w2.
Defined.

Lemma Anim_finish_is_last_frame (anim : Anim) (w : world) :
  Anim_finish anim w = Anim_frame anim w (anim_to anim).
Proof. reflexivity. Qed.

Lemma Anim_frames_styles (anim : Anim) (j r : nat) (vs : list Js.number) :
  ∀ w : world,
  NoDup (_elements w) →
  _elements w !! j = Some r →
  anim_el anim = Some r →
  _elements (Anim_frames anim vs w) = _elements w ∧
  (∀ i, i ≠ j → elem_style (Anim_frames anim vs w) i = elem_style w i) ∧
  (∀ p, p ≠ anim_attr anim →
     elem_style (Anim_frames anim vs w) j ≫= (.!! p) =
     elem_style w j ≫= (.!! p)).
Proof.
  induction vs as [|v vs IH]; intros w Hnd Hj Hel; [done|].
  unfold Anim_frames. simpl. fold (Anim_frames anim vs (Anim_frame anim w v)).
  destruct (IH (Anim_frame anim w v)) as (He & Hother & Hsame);
    [done | done | done |].
  unfold Anim_frame in *. rewrite Hel in *.
  split; [by rewrite He|]. split.
  - intros i Hi. rewrite (Hother i Hi), (elem_style_setStyle _ j) by done.
    rewrite decide_False by done. by rewrite option_fmap_id.
  - intros p Hp. rewrite (Hsame p Hp), (elem_style_setStyle _ j) by done.
    rewrite decide_True by done.
    destruct (elem_style w j); [simpl|done]. by rewrite lookup_insert_ne.
Qed.

(** X2. From the moment [_advance] returns and through every frame of the
    fade, whatever values the tween writes to the opacity of its element
    (with at least two elements, started idle at [c]): the outgoing element
    [c] and the incoming element [(c + 1) mod N] both have visibility
    "visible", the one of the two that is not tweened (the incoming
    element 0 at the wrap, the outgoing element elsewhere) has opacity 1,
    and every other element is concealed. *)
Theorem two_visible_throughout_fade
    (w : world) (c : nat) (t : Js.number) (now : Z) (vs : list Js.number) :
  elements_ok w = true →
  (2 ≤ length (_elements w))%nat →
  (c < length (_elements w))%nat →
  _current w = Js.of_nat c →
  pending w = [Timeout t] →
  idle_at c w = true →
  let n := ((c + 1) mod length (_elements w))%nat in
  ∃ w1 anim from h,
    step now w = Some w1 ∧
    pending w1 = [Tween anim from h] ∧
    n ≠ c ∧
    elem_style (Anim_frames anim vs w1) c ≫= (.!! "visibility") =
      Some (CStr "visible") ∧
    elem_style (Anim_frames anim vs w1) n ≫= (.!! "visibility") =
      Some (CStr "visible") ∧
    elem_style (Anim_frames anim vs w1) (if decide (n = 0%nat) then n else c)
      ≫= (.!! "opacity") = Some (CNum (Js.of_Z 1)) ∧
    ∀ i, (i < length (_elements w))%nat → i ≠ c → i ≠ n →
      concealed <$> elem_style (Anim_frames anim vs w1) i = Some true.
Proof.
  intros Hok HN Hc Hcur Hpend Hidle n.
  destruct (initiate_spec w c t now Hok Hc Hcur Hpend)
    as (rc & rn & w1 & Hrc & Hrn & Hstep1 & He1 & _ & _ & Hok1 & Hsty1 & Hp1).
  fold n in Hsty1, Hp1, Hrn.
  assert (Hne : n ≠ c) by (by apply mod_succ_neq).
  assert (Hn : (n < length (_elements w))%nat)
    by (apply Nat.mod_upper_bound; lia).
  pose proof Hok1 as [Hnd1 _]%elements_ok_spec.
  pose proof (proj1 (idle_at_spec c w) Hidle) as Hi.
  destruct (Hi c Hc) as (sc & Hsc & Hshown). rewrite decide_True in Hshown by done.
  destruct (Hi n Hn) as (sn & Hsn & _).
  apply shown_lookup in Hshown as [Hvis Hop].
  assert (Hs1c : elem_style w1 c = Some sc).
  { rewrite Hsty1, Hsc. unfold initiate_style. simpl. by rewrite decide_False. }
  assert (Hs1o : ∀ i, (i < length (_elements w))%nat → i ≠ c → i ≠ n →
            concealed <$> elem_style w1 i = Some true).
  { intros i Hlt Hic Hin. destruct (Hi i Hlt) as (s & Hs & Hco).
    rewrite decide_False in Hco by done.
    rewrite Hsty1, Hs. unfold initiate_style. simpl.
    rewrite decide_False by done. by rewrite Hco. }
  exists w1. destruct (decide (n = 0%nat)) as [Hn0|Hn0].
  - (* the wrap: the outgoing element is the one tweened *)
    assert (Hs1n : elem_style w1 n =
      Some (<["opacity" := CNum (Js.of_Z 1)]>
              (<["visibility" := CStr "visible"]> sn))).
    { rewrite Hsty1, Hsn. unfold initiate_style. simpl.
      rewrite decide_True by done. by rewrite decide_True. }
    destruct (Anim_frames_styles (fade_down (cfg w) (Some rc)) c rc vs w1)
      as (_ & Hother & Hsame); [done | by rewrite He1 | done |].
    eexists _, _, _. split; [done|]. split; [exact Hp1|]. split; [done|].
    rewrite (Hsame "visibility") by done. rewrite !(Hother n) by done.
    rewrite Hs1c, Hs1n. simpl.
    rewrite lookup_insert_ne, !lookup_insert_eq by done.
    repeat (split; [done|]).
    intros i Hlt Hic Hin. rewrite (Hother i) by done. by apply Hs1o.
  - (* away from the wrap: the incoming element is the one tweened *)
    assert (Hs1n : elem_style w1 n =
      Some (<["visibility" := CStr "visible"]> sn)).
    { rewrite Hsty1, Hsn. unfold initiate_style. simpl.
      rewrite decide_True by done. by rewrite decide_False. }
    destruct (Anim_frames_styles (fade_up (cfg w) (Some rn)) n rn vs w1)
      as (_ & Hother & Hsame); [done | by rewrite He1 | done |].
    eexists _, _, _. split; [done|]. split; [exact Hp1|]. split; [done|].
    rewrite (Hsame "visibility") by done. rewrite !(Hother c) by done.
    rewrite Hs1c, Hs1n. simpl. rewrite lookup_insert_eq.
    repeat (split; [done|]).
    intros i Hlt Hic Hin. rewrite (Hother i) by done. by apply Hs1o.
Qed.

Lemma two_visible_throughout_fade_witness :
  ∃ w1 anim from h,
    step 5000 resumed3 = Some w1 ∧
    pending w1 = [Tween anim from h] ∧
    elem_style (Anim_frames anim [Js.Num (3 # 4); Js.Num (1 # 4)] w1) 0
      ≫= (.!! "opacity") = Some (CNum (Js.of_Z 1)) ∧
    concealed <$>
      elem_style (Anim_frames anim [Js.Num (3 # 4); Js.Num (1 # 4)] w1) 1 =
      Some true.
Proof.
  destruct (two_visible_throughout_fade resumed3 2 (Js.Num 5000) 5000
              [Js.Num (3 # 4); Js.Num (1 # 4)])
    as (w1 & anim & from & h & H1 & Hp & _ & _ & _ & Hop & Hrest);
    [by_compute..|].
  exists w1, anim, from, h. split; [exact H1|]. split; [exact Hp|].
  split; [exact Hop|]. apply Hrest; by_compute.
Defined.

(** X3. With [N >= 2] elements, [N] transitions in a row ([2 N]
    callbacks) from a world idle at [c] bring the widget back to idle at
    [c], with exactly one element shown. *)
Theorem full_cycle_returns
    (w : world) (c : nat) (t : Js.number) (ticks : list Z) :
  elements_ok w = true →
  (2 ≤ length (_elements w))%nat →
  (c < length (_elements w))%nat →
  _current w = Js.of_nat c →
  pending w = [Timeout t] →
  idle_at c w = true →
  length ticks = (2 * length (_elements w))%nat →
  ∃ w', steps ticks w = Some w' ∧
    _current w' = Js.of_nat c ∧
    idle_at c w' = true ∧
    exactly_one_shown w'.
Proof.
  intros Hok HN Hc Hcur Hp Hidle Hlen.
  destruct (idle_along_run (length (_elements w)) w c t ticks)
    as (w' & Hsteps & _ & Hcur' & Hidle' & Hone); try done.
  assert (E : ((c + length (_elements w)) mod length (_elements w) = c)%nat).
  { rewrite <- (Nat.mul_1_l (length (_elements w))) at 1.
    rewrite Nat.Div0.mod_add. by apply Nat.mod_small. }
  rewrite E in Hcur', Hidle'. by exists w'.
Qed.

Lemma full_cycle_returns_witness :
  ∃ w', steps [5000; 6000; 10000; 11000; 15000; 16000] started3 = Some w' ∧
        idle_at 0 w' = true.
Proof.
  destruct (full_cycle_returns started3 0 (Js.Num 5000)
              [5000; 6000; 10000; 11000; 15000; 16000])
    as (w' & Hsteps & _ & Hidle & _); [by_compute..|].
  by exists w'.
Defined.



Lemma run_step (timer : bool) (now : Z) (w : world) (c : nat) :
  elements_ok w = true →
  (c < length (_elements w))%nat →
  _current w = Js.of_nat c →
  phase timer w →
  ∃ w', step now w = Some w' ∧
    _elements w' = _elements w ∧ cfg w' = cfg w ∧
    elements_ok w' = true ∧
    _current w' =
      Js.of_nat (if timer then (c + 1) mod length (_elements w) else c) ∧
    phase (negb timer) w'.
Proof.
  intros Hok Hc Hcur Hph. destruct timer; simpl in Hph |- *.
  - destruct Hph as [t Hp].
    destruct (initiate_spec w c t now Hok Hc Hcur Hp)
      as (rc & rn & w1 & _ & _ & Hstep & He1 & Hcur1 & Hcfg1 & Hok1 & _ & Hp1).
    exists w1. repeat (split; [done|]). case_decide; by do 3 eexists.
  - destruct Hph as (a & f & h & Hp).
    destruct (complete_spec w a f h now Hp)
      as (w2 & Hstep & He2 & Hcur2 & Hcfg2 & _ & Hp2 & _ & Hlen).
    exists w2. split; [done|]. split; [done|]. split; [done|].
    split; [by apply (elements_ok_frame w)|]. split; [by rewrite Hcur2|].
    by eexists.
Qed.

Lemma run_spec (ticks : list Z) :
  ∀ (timer : bool) (w : world) (c : nat),
  elements_ok w = true →
  (c < length (_elements w))%nat →
  _current w = Js.of_nat c →
  phase timer w →
  ∃ w', steps ticks w = Some w' ∧
    _elements w' = _elements w ∧ cfg w' = cfg w ∧
    elements_ok w' = true ∧
    _current w' =
      Js.of_nat ((c + advances timer (length ticks))
                 mod length (_elements w)) ∧
    phase (if Nat.even (length ticks) then timer else negb timer) w'.
Proof.
  induction ticks as [|now ticks IH]; intros timer w c Hok Hc Hcur Hph.
  - exists w. repeat (split; [done|]). split; [|done].
    rewrite Hcur. f_equal. unfold advances.
    destruct timer; simpl; rewrite Nat.add_0_r; by rewrite Nat.mod_small.
  - destruct (run_step timer now w c Hok Hc Hcur Hph)
      as (w1 & Hstep & He1 & Hcfg1 & Hok1 & Hcur1 & Hph1).
    set (N := length (_elements w)) in *.
    assert (Hc1 : ((if timer then (c + 1) mod N else c) < length (_elements w1))%nat).
    { rewrite He1. fold N. destruct timer; [|done].
      apply Nat.mod_upper_bound. lia. }
    destruct (IH _ _ _ Hok1 Hc1 Hcur1 Hph1)
      as (w' & Hsteps & He' & Hcfg' & Hok' & Hcur' & Hph').
    exists w'. split; [simpl; by rewrite Hstep|].
    rewrite He1 in He', Hcur'. fold N in Hcur'. rewrite Hcfg1 in Hcfg'.
    repeat (split; [done|]). split.
    + rewrite Hcur'. f_equal.
      change (length (now :: ticks)) with (S (length ticks)).
      unfold advances. destruct timer; simpl negb; cbv iota.
      * rewrite Nat.Div0.add_mod_idemp_l. f_equal.
        replace (S (length ticks) + 1)%nat with (length ticks + 1 * 2)%nat by lia.
        rewrite Nat.div_add by lia. rewrite <- Nat.add_assoc. f_equal. apply Nat.add_comm.
      * by replace (S (length ticks)) with (length ticks + 1)%nat by lia.
    + change (length (now :: ticks)) with (S (length ticks)).
      rewrite Nat.even_succ, <- Nat.negb_even.
      destruct (Nat.even (length ticks)); simpl in *; [done|].
      by rewrite negb_involutive in Hph'.
Qed.

Lemma step_frame (now : Z) (w w' : world) :
  step now w = Some w' → cfg w' = cfg w ∧ _elements w' = _elements w.
Proof.
  unfold step. destruct (pending w) as [|[t|a f h] rest]; [done| |];
    intros [= <-]; simpl.
  - unfold _advance, animate, _advanceCurrent.
    destruct (negb _); simpl; by destruct (cookie_persist (cfg w)).
  - by destruct h.
Qed.

Lemma step_persist_off (now : Z) (w w' : world) :
  cookie_persist (cfg w) = false →
  step now w = Some w' →
  jar w' = jar w ∧
  List.filter is_cookie_call (calls w') = List.filter is_cookie_call (calls w).
Proof.
  intros Hoff. unfold step. destruct (pending w) as [|[t|a f h] rest]; [done| |];
    intros [= <-]; simpl.
  - unfold _advance, animate, _advanceCurrent.
    destruct (negb _); simpl; rewrite Hoff; simpl;
      rewrite List.filter_app; simpl; by rewrite app_nil_r.
  - destruct h; simpl; rewrite List.filter_app; simpl; by rewrite app_nil_r.
Qed.

Lemma steps_persist_off (ticks : list Z) :
  ∀ w w', cookie_persist (cfg w) = false →
  steps ticks w = Some w' →
  jar w' = jar w ∧
  List.filter is_cookie_call (calls w') = List.filter is_cookie_call (calls w).
Proof.
  induction ticks as [|now ticks IH]; intros w w' Hoff Hsteps; simpl in Hsteps.
  - by injection Hsteps as <-.
  - destruct (step now w) as [w1|] eqn:Hstep; [|done].
    destruct (step_frame _ _ _ Hstep) as [Hcfg _].
    destruct (step_persist_off _ _ _ Hoff Hstep) as [Hj Hc].
    destruct (IH w1 w') as [Hj' Hc']; [by rewrite Hcfg | done |].
    by rewrite Hj', Hc', Hj, Hc.
Qed.

Lemma step_in_sync (now : Z) (w w' : world) :
  cookie_persist (cfg w) = true →
  step now w = Some w' →
  in_sync w ∨ (∃ t rest, pending w = Timeout t :: rest) →
  in_sync w'.
Proof.
  intros Hon. unfold step, in_sync.
  destruct (pending w) as [|[t|a f h] rest] eqn:Hp; [done| |];
    intros [= <-] Hpre; simpl.
  - unfold _advance, animate, _advanceCurrent, Cookie_getSub.
    destruct (negb _); simpl; rewrite Hon; simpl; by rewrite !lookup_insert_eq.
  - destruct Hpre as [Hs|(t & r & [=])]. by destruct h.
Qed.

Lemma steps_in_sync (ticks : list Z) :
  ∀ w w', cookie_persist (cfg w) = true →
  in_sync w → steps ticks w = Some w' → in_sync w'.
Proof.
  induction ticks as [|now ticks IH]; intros w w' Hon Hs Hsteps; simpl in Hsteps.
  - by injection Hsteps as <-.
  - destruct (step now w) as [w1|] eqn:Hstep; [|done].
    destruct (step_frame _ _ _ Hstep) as [Hcfg _].
    apply (IH w1 w'); [by rewrite Hcfg | | done].
    apply (step_in_sync now w); auto.
Qed.

(** X4. Once the timer is armed on an index in range, the rotation never
    stalls and never holds two callbacks: after any number [k] of
    callbacks exactly one callback is pending, the timer after an even
    number and a tween after an odd number; the elements and the
    configuration are unchanged and the current index is
    [(c + ceil(k / 2)) mod N]. *)
Theorem rotation_never_stalls
    (w : world) (c : nat) (t : Js.number) (ticks : list Z) :
  elements_ok w = true →
  (c < length (_elements w))%nat →
  _current w = Js.of_nat c →
  pending w = [Timeout t] →
  ∃ w', steps ticks w = Some w' ∧
    _elements w' = _elements w ∧ cfg w' = cfg w ∧
    _current w' =
      Js.of_nat ((c + (length ticks + 1) / 2) mod length (_elements w)) ∧
    if Nat.even (length ticks) then ∃ t', pending w' = [Timeout t']
    else ∃ anim from h, pending w' = [Tween anim from h].
Proof.
  intros Hok Hc Hcur Hp.
  destruct (run_spec ticks true w c Hok Hc Hcur) as
    (w' & Hsteps & He & Hcfg & _ & Hcur' & Hph); [by eexists|].
  exists w'. repeat (split; [done|]).
  by destruct (Nat.even (length ticks)).
Qed.

Lemma rotation_never_stalls_witness :
  ∃ w', steps [5000; 6000; 11000; 12000; 17000] started3 = Some w' ∧
        _current w' = Js.of_Z 0.
Proof.
  destruct (rotation_never_stalls started3 0 (Js.Num 5000)
              [5000; 6000; 11000; 12000; 17000])
    as (w' & Hsteps & _ & _ & Hcur & _); [by_compute..|].
  by exists w'.
Defined.

(** X6. With persistence on, after the first callback and after every
    later one the value stored under the cookie name is the current
    index. *)
Theorem store_follows_index
    (w : world) (c : nat) (t : Js.number) (now : Z) (ticks : list Z) :
  elements_ok w = true →
  (c < length (_elements w))%nat →
  _current w = Js.of_nat c →
  pending w = [Timeout t] →
  cookie_persist (cfg w) = true →
  ∃ w', steps (now :: ticks) w = Some w' ∧
    Cookie_getSub (jar w') (cookie_name (cfg w)) CURRENT = Some (_current w').
Proof.
  intros Hok Hc Hcur Hp Hon.
  destruct (run_spec (now :: ticks) true w c Hok Hc Hcur) as
    (w' & Hsteps & _ & Hcfg & _); [by eexists|].
  exists w'. split; [done|]. rewrite <- Hcfg.
  simpl in Hsteps. destruct (step now w) as [w1|] eqn:Hstep; [|done].
  destruct (step_frame _ _ _ Hstep) as [Hcfg1 _].
  apply (steps_in_sync ticks w1 w'); [by rewrite Hcfg1 | | done].
  apply (step_in_sync now w); [done | done |]. right. by eexists _, _.
Qed.

Lemma store_follows_index_witness :
  ∃ w', steps [5000; 6000; 11000] first_visit = Some w' ∧
    Cookie_getSub (jar w') "elementrotator" CURRENT = Some (_current w').
Proof.
  destruct (store_follows_index first_visit 0 (Js.Num 5000) 5000 [6000; 11000])
    as (w' & Hsteps & Hsync); [by_compute..|].
  exists w'. split; [exact Hsteps | exact Hsync].
Defined.

(** X7. With persistence off the rotation never touches the cookie
    store: after any number of callbacks the store is unchanged and no
    [Cookie.getSub] or [Cookie.setSub] call has been added. *)
Theorem no_cookie_access_without_persistence
    (w : world) (c : nat) (t : Js.number) (ticks : list Z) :
  elements_ok w = true →
  (c < length (_elements w))%nat →
  _current w = Js.of_nat c →
  pending w = [Timeout t] →
  cookie_persist (cfg w) = false →
  ∃ w', steps ticks w = Some w' ∧
    jar w' = jar w ∧
    List.filter is_cookie_call (calls w') =
      List.filter is_cookie_call (calls w).
Proof.
  intros Hok Hc Hcur Hp Hoff.
  destruct (run_spec ticks true w c Hok Hc Hcur) as (w' & Hsteps & _);
    [by eexists|].
  exists w'. split; [done|]. by apply (steps_persist_off ticks w w').
Qed.

Lemma no_cookie_access_without_persistence_witness :
  ∃ w', steps [5000; 6000; 11000; 12000] started3 = Some w' ∧
    jar w' = ∅ ∧ List.filter is_cookie_call (calls w') = [].
Proof.
  destruct (no_cookie_access_without_persistence started3 0 (Js.Num 5000)
              [5000; 6000; 11000; 12000])
    as (w' & Hsteps & Hjar & Hcalls); [by_compute..|].
  by exists w'.
Defined.

Lemma rem_NaN (a b : Js.number) :
  a = Js.NaN ∨ b = Js.of_nat 0 → Js.rem (Js.add a (Js.of_Z 1)) b = Js.NaN.
Proof.
  intros [-> | ->]; [done|]. by destruct a.
Qed.

(** X8. [_advanceCurrent] on an empty element list, or on an index that is
    already [NaN], yields [NaN], and every later call keeps it; with
    persistence on, [NaN] is what gets stored. *)
Theorem index_lost_without_elements (w : world) (n : nat) :
  _elements w = [] ∨ _current w = Js.NaN →
  _current (Nat.iter (S n) _advanceCurrent w) = Js.NaN ∧
  (cookie_persist (cfg w) = true →
   Cookie_getSub (jar (Nat.iter (S n) _advanceCurrent w))
     (cookie_name (cfg w)) CURRENT = Some Js.NaN).
Proof.
  intros Hnone.
  assert (Hiter : ∀ m, _elements (Nat.iter m _advanceCurrent w) = _elements w ∧
                       cfg (Nat.iter m _advanceCurrent w) = cfg w).
  { induction m as [|m [IHe IHc]]; [done|]. simpl.
    by rewrite _advanceCurrent_elements, _advanceCurrent_cfg. }
  assert (Hnan : ∀ m, _current (Nat.iter (S m) _advanceCurrent w) = Js.NaN).
  { induction m as [|m IH].
    - simpl. rewrite _advanceCurrent_current. apply rem_NaN.
      destruct Hnone as [-> | ->]; [by right | by left].
    - change (Nat.iter (S (S m)) _advanceCurrent w)
        with (_advanceCurrent (Nat.iter (S m) _advanceCurrent w)).
      rewrite _advanceCurrent_current. apply rem_NaN. by left. }
  split; [done|]. intros Hon.
  change (Nat.iter (S n) _advanceCurrent w)
    with (_advanceCurrent (Nat.iter n _advanceCurrent w)).
  destruct (Hiter n) as [_ Hcfg]. rewrite <- Hcfg.
  rewrite _advanceCurrent_stored by (by rewrite Hcfg).
  f_equal. apply (Hnan n).
Qed.

Lemma index_lost_without_elements_witness :
  _current (Nat.iter 3 _advanceCurrent blank_world) = Js.NaN.
Proof.
  destruct (index_lost_without_elements blank_world 2) as [H _];
    [left; by_compute|].
  exact H.
Defined.

Lemma _advance_at (w : world) (c : nat) :
  (1 ≤ length (_elements w))%nat →
  _current w = Js.of_nat c →
  let n := ((c + 1) mod length (_elements w))%nat in
  let current := _elements w !! c in
  let next := _elements w !! n in
  _advance w =
  if decide (n = 0%nat) then
    animate (fade_down (cfg w) current) (FadeDownComplete current)
      (_advanceCurrent
         (setStyle next "opacity" (CNum (Js.of_Z 1))
            (setStyle next "visibility" (CStr "visible") w)))
  else
    animate (fade_up (cfg w) next) (FadeUpComplete current)
      (_advanceCurrent (setStyle next "visibility" (CStr "visible") w)).
Proof.
  intros HN Hcur n current next. unfold _advance.
  rewrite Hcur, advance_index by lia. fold n.
  rewrite !index_of_nat. unfold Js.of_nat at 1.
  rewrite strict_eq_of_Z.
  case_decide as Hn; destruct (Z.eqb_spec (Z.of_nat n) 0); (reflexivity || lia).
Qed.

(** X9. A start index [k >= N] (with [N >= 1] elements, all concealed, as
    [render] leaves them) is repaired by the first transition: no outgoing
    element exists, the style and tween primitives being given [undefined]
    change nothing, and the transition ends idle at [(k + 1) mod N], which
    is in range, with exactly one element shown. *)
Theorem out_of_range_index_recovers
    (w : world) (k : nat) (t : Js.number) (now1 now2 : Z) :
  elements_ok w = true →
  (1 ≤ length (_elements w))%nat →
  (length (_elements w) ≤ k)%nat →
  _current w = Js.of_nat k →
  pending w = [Timeout t] →
  idle_at k w = true →
  let n := ((k + 1) mod length (_elements w))%nat in
  ∃ w2, steps [now1; now2] w = Some w2 ∧
    _current w2 = Js.of_nat n ∧
    (n < length (_elements w2))%nat ∧
    pending w2 = [Timeout (schedule_delay (cfg w) now2)] ∧
    idle_at n w2 = true ∧
    exactly_one_shown w2.
Proof.
  intros Hok HN Hk Hcur Hpend Hidle n.
  pose proof Hok as [Hnd Hrange]%elements_ok_spec.
  assert (Hn : (n < length (_elements w))%nat) by (apply Nat.mod_upper_bound; lia).
  destruct (lookup_lt_is_Some_2 _ _ Hn) as [rn Hrn].
  assert (Hnone : _elements w !! k = None) by (by apply lookup_ge_None).
  set (wf := setStyle (Some rn) "opacity" (CNum (Js.of_Z 1))
               (setStyle (Some rn) "visibility" (CStr "visible") w)).
  assert (Hstyles : ∀ i, elem_style wf i = cycle_style k n i <$> elem_style w i).
  { intros i. unfold wf.
    rewrite (elem_style_setStyle _ n), (elem_style_setStyle _ n) by done.
    unfold cycle_style. rewrite <- !option_fmap_compose.
    destruct (elem_style w i) as [s|] eqn:Hs; [simpl|done].
    assert (i ≠ k).
    { intros ->. rewrite elem_style_eq, Hnone in Hs. done. }
    repeat case_decide; done. }
  assert (Hnext : Js.rem (Js.add (Js.of_nat k) (Js.of_Z 1))
                    (Js.of_nat (length (_elements w))) = Js.of_nat n)
    by (apply advance_index; lia).
  assert (Hframe : ∀ w2, _elements w2 = _elements wf → el w2 = el wf →
     _current w2 = Js.of_nat n →
     pending w2 = [Timeout (schedule_delay (cfg w) now2)] →
     _current w2 = Js.of_nat n ∧ (n < length (_elements w2))%nat ∧
     pending w2 = [Timeout (schedule_delay (cfg w) now2)] ∧
     idle_at n w2 = true ∧ exactly_one_shown w2).
  { intros w2 He Hel Hcur2 Hp.
    assert (He2 : _elements w2 = _elements w) by done.
    assert (Hidle2 : idle_at n w2 = true).
    { apply (idle_at_cycle_style w w2 k n); [done | | lia | done].
      intros i. rewrite <- Hstyles. by apply elem_style_frame. }
    repeat (split; [by rewrite ?He2|]).
    apply (idle_at_exactly_one n); [by rewrite He2 | done]. }
  simpl. rewrite (step_pending _ _ _ _ Hpend). simpl.
  rewrite (_advance_at _ k) by done. simpl. fold n. rewrite Hnone, Hrn.
  case_decide as Hn0; unfold step, animate, _advanceCurrent; simpl;
    destruct (cookie_persist (cfg w)); simpl;
    (eexists; split; [reflexivity|]);
    apply Hframe; simpl; rewrite ?Hcur, ?Hnext; done.
Qed.

Lemma out_of_range_index_recovers_witness :
  ∃ w2, steps [5000; 6000] overshoot_world = Some w2 ∧
        _current w2 = Js.of_Z 2 ∧ idle_at 2 w2 = true.
Proof.
  destruct (out_of_range_index_recovers overshoot_world 7 (Js.Num 5000) 5000 6000)
    as (w2 & Hsteps & Hcur & _ & _ & Hidle & _); [by_compute..|].
  by exists w2.
Defined.

Lemma prepare_node_layout (current : Js.number) (j : nat) (n : node) :
  nodeType (prepare_node current j n) = nodeType n ∧
  node_style (prepare_node current j n) !! "position" = Some (CStr "absolute") ∧
  node_style (prepare_node current j n) !! "left" = Some (CNum (Js.of_Z 0)) ∧
  node_style (prepare_node current j n) !! "top" = Some (CNum (Js.of_Z 0)) ∧
  node_style (prepare_node current j n) !! "zIndex" = Some (CNum (Js.of_nat j)).
Proof.
  unfold prepare_node. simpl. split; [done|].
  repeat split; repeat (rewrite lookup_insert_ne by done); by rewrite lookup_insert_eq.
Qed.

Lemma prepare_elements (current : Js.number) (nodes : list node) :
  ∀ (i j : nat) (ns : list node) (es : list nat),
  prepare current nodes i j = (ns, es) →
  (∀ r, r ∈ es ↔
        (i ≤ r)%nat ∧ ∃ n, nodes !! (r - i)%nat = Some n ∧ nodeType n = 1) ∧
  (∀ k n, nodes !! k = Some n → nodeType n ≠ 1 → ns !! k = Some n).
Proof.
  induction nodes as [|n nodes IH]; intros i j ns es Hprep; simpl in Hprep.
  - injection Hprep as <- <-. split.
    + intros r. split; [by intros ?%elem_of_nil|].
      intros (_ & n & Hn & _). by rewrite lookup_nil in Hn.
    + intros k n Hn. by rewrite lookup_nil in Hn.
  - destruct (Z.eqb_spec (nodeType n) 1) as [Ht|Ht].
    + destruct (prepare current nodes (S i) (S j)) as [ns' es'] eqn:Hrec.
      injection Hprep as <- <-.
      destruct (IH _ _ _ _ Hrec) as (Hin & Hkeep). split.
      * intros r. rewrite elem_of_cons, Hin. split.
        -- intros [->|(Hle & n' & Hn' & Ht')].
           ++ split; [done|]. exists n. by rewrite Nat.sub_diag.
           ++ split; [lia|]. exists n'.
              by replace (r - i)%nat with (S (r - S i)) by lia.
        -- intros (Hle & n' & Hn' & Ht').
           destruct (decide (r = i)) as [->|Hne]; [by left|]. right.
           split; [lia|]. exists n'.
           by replace (r - i)%nat with (S (r - S i)) in Hn' by lia.
      * intros [|k] n' Hn' Ht'; simpl in *; [congruence|]. eauto.
    + destruct (prepare current nodes (S i) j) as [ns' es'] eqn:Hrec.
      injection Hprep as <- <-.
      destruct (IH _ _ _ _ Hrec) as (Hin & Hkeep). split.
      * intros r. rewrite Hin. split.
        -- intros (Hle & n' & Hn' & Ht').
           split; [lia|]. exists n'.
           by replace (r - i)%nat with (S (r - S i)) by lia.
        -- intros (Hle & n' & Hn' & Ht').
           destruct (decide (r = i)) as [->|Hne].
           { rewrite Nat.sub_diag in Hn'. simpl in Hn'. congruence. }
           split; [lia|]. exists n'.
           by replace (r - i)%nat with (S (r - S i)) in Hn' by lia.
      * intros [|k] n' Hn' Ht'; simpl in *; [congruence|]. eauto.
Qed.

(** X10. [render] on a container with a child node leaves the [p]-th
    element child absolutely positioned at left 0, top 0, with [zIndex] [p],
    and shown when [p] is the current index, concealed otherwise. *)
Theorem render_lays_out_elements (now : Z) (w : world) (p : nat) :
  childNodes (el w) ≠ [] →
  (p < length (_elements (render now w)))%nat →
  ∃ s, elem_style (render now w) p = Some s ∧
    s !! "position" = Some (CStr "absolute") ∧
    s !! "left" = Some (CNum (Js.of_Z 0)) ∧
    s !! "top" = Some (CNum (Js.of_Z 0)) ∧
    s !! "zIndex" = Some (CNum (Js.of_nat p)) ∧
    if Js.strict_eq (Js.of_nat p) (_current (render now w))
    then shown s = true else concealed s = true.
Proof.
  intros Hne Hp.
  destruct (render_spec now w Hne) as (Hcur & He & Hnodes & _).
  rewrite Hcur.
  destruct (prepare (_current (_initCurrent w)) (childNodes (el w)) 0 0)
    as [ns es] eqn:Hprep.
  simpl in He, Hnodes.
  destruct (prepare_spec _ _ _ _ _ _ Hprep) as (_ & _ & Hlook & _).
  rewrite He in Hp. destruct (lookup_lt_is_Some_2 _ _ Hp) as [r Hr].
  destruct (Hlook p r Hr) as (_ & n & _ & Hns).
  rewrite Nat.sub_0_r in Hns. simpl in Hns.
  rewrite elem_style_eq, He, Hr, Hnodes, Hns. simpl.
  eexists; split; [done|].
  destruct (prepare_node_layout (_current (_initCurrent w)) p n)
    as (_ & H1 & H2 & H3 & H4).
  repeat (split; [done|]). apply prepare_node_style.
Qed.

Lemma render_lays_out_elements_witness :
  ∃ s, elem_style started3 2 = Some s ∧
       s !! "zIndex" = Some (CNum (Js.of_Z 2)) ∧ concealed s = true.
Proof.
  destruct (render_lays_out_elements 0
              (ElementRotator 1 banner3 _CONFIG_DEFAULTS ∅) 2)
    as (s & Hs & _ & _ & _ & Hz & Hv); [by_compute..|].
  exists s. split; [exact Hs|]. split; [exact Hz | exact Hv].
Defined.

(** X11. [render] keeps in [_elements] exactly the positions of the child
    nodes of type 1, in document order; it neither adds nor removes child
    nodes, and leaves the nodes of any other type untouched. *)
Theorem render_collects_element_children (now : Z) (w : world) :
  childNodes (el w) ≠ [] →
  length (childNodes (el (render now w))) = length (childNodes (el w)) ∧
  (∀ r, r ∈ _elements (render now w) ↔
        ∃ n, childNodes (el w) !! r = Some n ∧ nodeType n = 1) ∧
  (∀ p q r r', (p < q)%nat →
     _elements (render now w) !! p = Some r →
     _elements (render now w) !! q = Some r' → (r < r')%nat) ∧
  (∀ k n, childNodes (el w) !! k = Some n → nodeType n ≠ 1 →
     childNodes (el (render now w)) !! k = Some n).
Proof.
  intros Hne.
  destruct (render_spec now w Hne) as (_ & He & Hnodes & _).
  destruct (prepare (_current (_initCurrent w)) (childNodes (el w)) 0 0)
    as [ns es] eqn:Hprep.
  simpl in He, Hnodes. rewrite He, Hnodes.
  destruct (prepare_spec _ _ _ _ _ _ Hprep) as (Hlen & _ & _ & Hsorted).
  destruct (prepare_elements _ _ _ _ _ _ Hprep) as (Hin & Hkeep).
  split; [done|]. split; [|split; [done|done]].
  intros r. rewrite Hin, Nat.sub_0_r. split; [by intros [_ ?]|].
  intros H. split; [lia|done].
Qed.

Lemma render_collects_element_children_witness :
  (3%nat ∈ _elements started3) ∧ childNodes (el started3) !! 2%nat = Some text_node.
Proof.
  destruct (render_collects_element_children 0
              (ElementRotator 1 banner3 _CONFIG_DEFAULTS ∅))
    as (_ & Hin & _ & Hkeep); [by_compute|].
  split.
  - apply Hin. exists div_node. by_compute.
  - apply Hkeep; by_compute.
Defined.

Lemma render_ctr_style (now : Z) (w : world) :
  childNodes (el w) ≠ [] →
  ctr_style (el (render now w)) =
  if negb (css_truthy (ctr_style (el w) !! "position")) ||
     css_is (ctr_style (el w) !! "position") "static"
  then <["position" := CStr "relative"]> (ctr_style (el w))
  else ctr_style (el w).
Proof.
  intros Hne. unfold render.
  destruct (childNodes (el w)) as [|n0 rest] eqn:Hnodes; [done|].
  change (negb (length (n0 :: rest) =? 0)%nat) with true. cbv iota.
  destruct (_initCurrent_frame w) as (He & Hel & Hcfg & Hjar & Hp & Hthis).
  destruct (prepare (_current (_initCurrent w)) (n0 :: rest) 0 0) as [ns es].
  simpl.
  destruct (negb (css_truthy (ctr_style (el w) !! "position")) ||
            css_is (ctr_style (el w) !! "position") "static"); simpl;
    by rewrite ?Hel.
Qed.

(** X12. On a container with at least one child node [render] sets the
    position of the container to "relative" when it is unset, empty or
    "static".  It leaves the container's style as it is when the position
    is any other string, and on a container without child nodes. *)
Theorem render_positions_container (now : Z) (w : world) (s : string) :
  (childNodes (el w) ≠ [] →
   ctr_style (el w) !! "position" = None ∨
   ctr_style (el w) !! "position" = Some (CStr "") ∨
   ctr_style (el w) !! "position" = Some (CStr "static") →
   ctr_style (el (render now w)) =
     <["position" := CStr "relative"]> (ctr_style (el w))) ∧
  (ctr_style (el w) !! "position" = Some (CStr s) →
   s ≠ "" → s ≠ "static" →
   ctr_style (el (render now w)) = ctr_style (el w)) ∧
  (childNodes (el w) = [] →
   ctr_style (el (render now w)) = ctr_style (el w)).
Proof.
  split; [|split].
  - intros Hne Hpos. rewrite (render_ctr_style now w Hne).
    by destruct Hpos as [->|[->| ->]].
  - intros Hs Hs1 Hs2.
    destruct (decide (childNodes (el w) = [])) as [Hempty|Hne].
    { by rewrite (render_empty now w Hempty). }
    rewrite (render_ctr_style now w Hne), Hs. simpl.
    destruct (String.eqb_spec s ""); [done|].
    destruct (String.eqb_spec s "static"); done.
  - intros Hempty. by rewrite (render_empty now w Hempty).
Qed.

Lemma render_positions_container_witness :
  ctr_style (el started3) !! "position" = Some (CStr "relative") ∧
  ctr_style (el (render 0 (ElementRotator 1 pinned3 _CONFIG_DEFAULTS ∅)))
    !! "position" = Some (CStr "absolute") ∧
  ctr_style (el (render 0 (ElementRotator 1 empty _CONFIG_DEFAULTS ∅)))
    !! "position" = None.
Proof.
  split; [|split].
  - destruct (render_positions_container 0
                (ElementRotator 1 banner3 _CONFIG_DEFAULTS ∅) "")
      as [H _].
    unfold started3. rewrite H; [by_compute | by_compute |]. left. by_compute.
  - destruct (render_positions_container 0
                (ElementRotator 1 pinned3 _CONFIG_DEFAULTS ∅) "absolute")
      as (_ & H & _).
    rewrite H; by_compute.
  - destruct (render_positions_container 0
                (ElementRotator 1 empty _CONFIG_DEFAULTS ∅) "")
      as (_ & _ & H).
    rewrite H; by_compute.
Defined.

(** X13. The index a freshly constructed widget starts at, on a container
    with a child node: 0 with persistence off (the cookie store is not
    read); with persistence on, one [Cookie.getSub] is made and the index
    is the stored value when it is a non-zero number, and 0 when nothing is
    stored or when the stored value is 0 or [NaN]. *)
Theorem render_start_index
    (now : Z) (ref : nat) (ctr : container) (c : config)
    (cookies : gmap string (gmap string Js.number)) :
  childNodes ctr ≠ [] →
  _current (render now (ElementRotator ref ctr c cookies)) =
    (if cookie_persist c then
       match Cookie_getSub cookies (cookie_name c) CURRENT with
       | Some v => if Js.truthy v then v else Js.of_Z 0
       | None => Js.of_Z 0
       end
     else Js.of_Z 0) ∧
  calls (render now (ElementRotator ref ctr c cookies)) =
    (if cookie_persist c then [Call_getSub (cookie_name c) CURRENT] else []) ++
    [Call_setTimeout (schedule_delay c now)].
Proof.
  intros Hne. set (w0 := ElementRotator ref ctr c cookies).
  destruct (render_spec now w0 Hne) as (-> & _ & _ & _ & _ & _ & ->).
  unfold _initCurrent. simpl.
  destruct (cookie_persist c); [|done].
  destruct (Cookie_getSub cookies (cookie_name c) CURRENT) as [v|]; [|done].
  by destruct (Js.truthy v).
Qed.

Lemma render_start_index_witness :
  _current first_visit = Js.of_Z 0 ∧
  calls first_visit = [Call_getSub "elementrotator" "current";
                       Call_setTimeout (Js.of_Z 5000)].
Proof.
  destruct (render_start_index 0 1 banner3 persist5 ∅) as [Hc Hl]; [by_compute|].
  split; [exact Hc | exact Hl].
Defined.

(** X14. When the index a freshly constructed widget starts at is below
    the number of element children, [render] leaves the widget idle at that
    index: [_elements] is well formed, the timer is the one pending
    callback, and exactly one element, the one at the index, is shown. *)
Theorem render_starts_idle
    (now : Z) (ref : nat) (ctr : container) (c : config)
    (cookies : gmap string (gmap string Js.number)) (k : nat) :
  (k < length (element_children ctr))%nat →
  _current (_initCurrent (ElementRotator ref ctr c cookies)) = Js.of_nat k →
  elements_ok (render now (ElementRotator ref ctr c cookies)) = true ∧
  length (_elements (render now (ElementRotator ref ctr c cookies))) =
    length (element_children ctr) ∧
  _current (render now (ElementRotator ref ctr c cookies)) = Js.of_nat k ∧
  pending (render now (ElementRotator ref ctr c cookies)) =
    [Timeout (schedule_delay c now)] ∧
  idle_at k (render now (ElementRotator ref ctr c cookies)) = true ∧
  exactly_one_shown (render now (ElementRotator ref ctr c cookies)).
Proof.
  intros HN Hinit. set (w0 := ElementRotator ref ctr c cookies) in *.
  assert (Hne : childNodes (el w0) ≠ []).
  { simpl. intros E. unfold element_children in HN. rewrite E in HN.
    simpl in HN. lia. }
  destruct (render_spec now w0 Hne) as (Hcur & _ & _ & _ & _ & Hpend & _).
  destruct (render_elements now w0 Hne) as (Hok & Hlen & Hsty).
  rewrite Hinit in Hcur, Hsty. simpl in Hpend.
  change (el w0) with ctr in Hlen.
  assert (Hidle : idle_at k (render now w0) = true).
  { apply idle_at_spec. intros i Hi. destruct (Hsty i Hi) as (s & Hs & Hs').
    exists s. split; [done|].
    unfold Js.of_nat in Hs'. rewrite strict_eq_of_Z in Hs'.
    case_decide as E.
    - subst i. by rewrite Z.eqb_refl in Hs'.
    - destruct (Z.eqb_spec (Z.of_nat i) (Z.of_nat k)); [lia|done]. }
  repeat (split; [done|]).
  apply (idle_at_exactly_one k); [by rewrite Hlen | done].
Qed.

Lemma render_starts_idle_witness :
  idle_at 2 resumed3 = true ∧ exactly_one_shown resumed3.
Proof.
  destruct (render_starts_idle 0 1 banner3 persist5 (stored 2) 2)
    as (_ & _ & _ & _ & Hidle & Hone); [by_compute..|].
  split; [exact Hidle | exact Hone].
Defined.

Lemma node_setStyle_twice (p : string) (v : cssval) (n : node) :
  node_setStyle p v (node_setStyle p v n) = node_setStyle p v n.
Proof. unfold node_setStyle. simpl. by rewrite insert_insert_eq. Qed.

Lemma prepare_node_twice (current : Js.number) (j : nat) (n : node) :
  prepare_node current j (prepare_node current j n) = prepare_node current j n.
Proof.
  unfold prepare_node, node_setStyle. simpl. f_equal.
  apply map_eq. intros k.
  rewrite !lookup_insert. repeat case_decide; done.
Qed.

Lemma prepare_twice (current : Js.number) (nodes : list node) :
  ∀ (i j : nat) (ns : list node) (es : list nat),
  prepare current nodes i j = (ns, es) →
  prepare current ns i j = (ns, es).
Proof.
  induction nodes as [|n nodes IH]; intros i j ns es Hprep; simpl in Hprep.
  - by injection Hprep as <- <-.
  - destruct (Z.eqb_spec (nodeType n) 1) as [Ht|Ht].
    + destruct (prepare current nodes (S i) (S j)) as [ns' es'] eqn:Hrec.
      injection Hprep as <- <-. simpl.
      destruct (Z.eqb_spec (nodeType n) 1); [|done].
      by rewrite (IH _ _ _ _ Hrec), prepare_node_twice.
    + destruct (prepare current nodes (S i) j) as [ns' es'] eqn:Hrec.
      injection Hprep as <- <-. simpl.
      destruct (Z.eqb_spec (nodeType n) 1); [done|].
      by rewrite (IH _ _ _ _ Hrec).
Qed.

Lemma _initCurrent_twice (w w' : world) :
  cfg w' = cfg w → jar w' = jar w →
  _current w' = _current (_initCurrent w) →
  _current (_initCurrent w') = _current w'.
Proof.
  intros Hcfg Hjar Hcur. unfold _initCurrent in *. rewrite Hcfg, Hjar.
  destruct (cookie_persist (cfg w)); [|done].
  destruct (Cookie_getSub (jar w) (cookie_name (cfg w)) CURRENT) as [v|]; [|done].
  destruct (Js.truthy v); simpl in *; done.
Qed.

Lemma container_eq (a b : container) :
  ctr_style a = ctr_style b → childNodes a = childNodes b → a = b.
Proof. destruct a, b; simpl; by intros -> ->. Qed.

(** X15. A second [render] made right after the first, before any
    callback has run, changes neither the container with its child nodes,
    nor [_elements], nor the current index. *)
Theorem render_twice_same_display (now now' : Z) (w : world) :
  el (render now' (render now w)) = el (render now w) ∧
  _elements (render now' (render now w)) = _elements (render now w) ∧
  _current (render now' (render now w)) = _current (render now w).
Proof.
  destruct (decide (childNodes (el w) = [])) as [Hempty|Hne].
  { by rewrite !(render_empty now w Hempty), (render_empty now' w Hempty). }
  destruct (render_spec now w Hne) as (Hcur & He & Hnodes & Hcfg & Hjar & _).
  destruct (prepare (_current (_initCurrent w)) (childNodes (el w)) 0 0)
    as [ns es] eqn:Hprep.
  simpl in He, Hnodes.
  destruct (prepare_spec _ _ _ _ _ _ Hprep) as (Hlen & _).
  assert (Hne' : childNodes (el (render now w)) ≠ []).
  { rewrite Hnodes. intros E. rewrite E in Hlen.
    destruct (childNodes (el w)); done. }
  destruct (render_spec now' _ Hne') as (Hcur2 & He2 & Hnodes2 & _).
  assert (Hsame : _current (_initCurrent (render now w)) =
                  _current (render now w))
    by (by apply (_initCurrent_twice w)).
  rewrite Hsame in Hcur2. simpl in He2, Hnodes2.
  rewrite Hsame, Hnodes, Hcur in He2, Hnodes2.
  rewrite (prepare_twice _ _ _ _ _ _ Hprep) in He2, Hnodes2.
  simpl in He2, Hnodes2.
  split; [|split; [by rewrite He2, He | done]].
  apply container_eq; [|by rewrite Hnodes2, Hnodes].
  rewrite (render_ctr_style now' _ Hne'), (render_ctr_style now w Hne).
  destruct (negb (css_truthy (ctr_style (el w) !! "position")) ||
            css_is (ctr_style (el w) !! "position") "static") eqn:Hpos.
  - by rewrite lookup_insert_eq.
  - by rewrite Hpos.
Qed.

Lemma idle_at_of_render (w' : world) (current : Js.number) (k : nat) :
  current = Js.of_nat k →
  (∀ p, (p < length (_elements w'))%nat →
     ∃ s, elem_style w' p = Some s ∧
       if Js.strict_eq (Js.of_nat p) current
       then shown s = true else concealed s = true) →
  idle_at k w' = true.
Proof.
  intros -> Hsty. apply idle_at_spec. intros i Hi.
  destruct (Hsty i Hi) as (s & Hs & Hs').
  exists s. split; [done|].
  unfold Js.of_nat in Hs'. rewrite strict_eq_of_Z in Hs'.
  case_decide as E.
  - subst i. by rewrite Z.eqb_refl in Hs'.
  - destruct (Z.eqb_spec (Z.of_nat i) (Z.of_nat k)); [lia|done].
Qed.

(** X16. With persistence on, a widget constructed on the cookies an
    earlier one left behind, after at least one callback, over the same
    number of element children and with the same cookie name, starts at the
    earlier widget's current index and is idle there. *)
Theorem reload_resumes
    (w : world) (c : nat) (t : Js.number) (tick : Z) (ticks : list Z)
    (now : Z) (ref : nat) (ctr : container) (c' : config) :
  elements_ok w = true →
  (c < length (_elements w))%nat →
  _current w = Js.of_nat c →
  pending w = [Timeout t] →
  cookie_persist (cfg w) = true →
  cookie_persist c' = true →
  cookie_name c' = cookie_name (cfg w) →
  length (element_children ctr) = length (_elements w) →
  ∃ w' k,
    steps (tick :: ticks) w = Some w' ∧
    _current w' = Js.of_nat k ∧
    _current (render now (ElementRotator ref ctr c' (jar w'))) = Js.of_nat k ∧
    idle_at k (render now (ElementRotator ref ctr c' (jar w'))) = true ∧
    exactly_one_shown (render now (ElementRotator ref ctr c' (jar w'))).
Proof.
  intros Hok Hc Hcur Hp Hon Hon' Hname HN.
  destruct (run_spec (tick :: ticks) true w c Hok Hc Hcur) as
    (w' & Hsteps & _ & Hcfg & _ & Hcur' & _); [by eexists|].
  set (k := ((c + advances true (length (tick :: ticks)))
             mod length (_elements w))%nat) in *.
  assert (Hk : (k < length (_elements w))%nat)
    by (apply Nat.mod_upper_bound; lia).
  assert (Hsync : in_sync w').
  { pose proof Hsteps as Hsteps'. simpl in Hsteps'.
    destruct (step tick w) as [w1|] eqn:Hstep; [|done].
    destruct (step_frame _ _ _ Hstep) as [Hcfg1 _].
    apply (steps_in_sync ticks w1 w'); [by rewrite Hcfg1 | | done].
    apply (step_in_sync tick w); [done | done |]. right. by eexists _, _. }
  unfold in_sync in Hsync. rewrite Hcfg, <- Hname, Hcur' in Hsync.
  set (w0 := ElementRotator ref ctr c' (jar w')).
  assert (Hinit : _current (_initCurrent w0) = Js.of_nat k).
  { rewrite (_initCurrent_stored w0 (Z.of_nat k)); [|done|done].
    destruct (Z.eqb_spec (Z.of_nat k) 0) as [E|E]; [|done].
    unfold Js.of_nat. by rewrite E. }
  assert (Hne : childNodes (el w0) ≠ []).
  { simpl. intros E. unfold element_children in HN. rewrite E in HN.
    simpl in HN. lia. }
  destruct (render_spec now w0 Hne) as (Hcur0 & _).
  destruct (render_elements now w0 Hne) as (_ & Hlen & Hsty).
  change (el w0) with ctr in Hlen.
  assert (Hidle : idle_at k (render now w0) = true)
    by (by apply (idle_at_of_render _ (_current (_initCurrent w0)))).
  subst w0. exists w', k. split; [done|]. split; [done|].
  split; [by rewrite Hcur0|].
  split; [done|]. apply (idle_at_exactly_one k); [|done]. rewrite Hlen. lia.
Qed.

Lemma reload_resumes_witness :
  ∃ w' k,
    steps [5000; 6000; 11000] first_visit = Some w' ∧
    _current w' = Js.of_nat k ∧
    idle_at k (render 20000 (ElementRotator 2 banner3 persist5 (jar w'))) = true.
Proof.
  destruct (reload_resumes first_visit 0 (Js.Num 5000) 5000 [6000; 11000]
              20000 2 banner3 persist5)
    as (w' & k & Hsteps & Hcur & _ & Hidle & _); [by_compute..|].
  by exists w', k.
Defined.

Lemma Qeq_bool_pos (d : Q) : (0 < d)%Q → Qeq_bool d 0 = false.
Proof.
  intros Hpos. destruct (Qeq_bool d 0) eqn:E0; [|done].
  apply Qeq_bool_eq in E0. rewrite E0 in Hpos. by apply Qlt_irrefl in Hpos.
Qed.

(** The delay under clock sync, for a clock at or after the epoch. *)
Lemma schedule_delay_sync (c : config) (t : Z) :
  (0 < show_duration c)%Q → 0 <= t → clock_sync c = true →
  ∃ q, schedule_delay c t = Js.Num q ∧
    (q == 1000 * show_duration c
          - spec_mod (inject_Z t) (1000 * show_duration c))%Q.
Proof.
  intros Hsd Ht Hsync. unfold schedule_delay. rewrite Hsync.
  destruct (mul_1000_pos _ Hsd) as (d' & -> & Hd' & Hpos).
  assert (Ht' : (0 <= inject_Z t)%Q) by (unfold Qle; simpl; lia).
  destruct (rem_nonneg _ _ Ht' Hpos) as (r & Hr & Er).
  unfold Js.of_Z. rewrite Hr. simpl. eexists; split; [reflexivity|].
  rewrite Qred_correct, Er, (spec_mod_comp _ _ _ Hd'), Hd'. reflexivity.
Qed.

Lemma spec_mod_multiple (d : Q) (m : Z) :
  (0 < d)%Q → (spec_mod (d * inject_Z m) d == 0)%Q.
Proof.
  intros Hd. unfold spec_mod.
  assert (E : Qfloor (d * inject_Z m / d) = m).
  { rewrite <- (Qfloor_Z m) at 2. apply Qfloor_comp.
    rewrite Qmult_comm. apply Qdiv_mult_l.
    intros E. rewrite E in Hd. by apply Qlt_irrefl in Hd. }
  rewrite E. ring.
Qed.

(** X17. Under clock sync, for a positive [show_duration] and a clock
    reading [t >= 0], the timer fires on the next boundary of the grid of
    period [d = 1000 * show_duration] anchored at the epoch:
    [t + delay = d * (floor (t / d) + 1)], a multiple of [d]. *)
Theorem clock_sync_lands_on_grid (c : config) (t : Z) :
  (0 < show_duration c)%Q → 0 <= t → clock_sync c = true →
  let d := (1000 * show_duration c)%Q in
  ∃ q, schedule_delay c t = Js.Num q ∧
    (inject_Z t + q == d * inject_Z (Qfloor (inject_Z t / d) + 1))%Q ∧
    (spec_mod (inject_Z t + q) d == 0)%Q.
Proof.
  intros Hsd Ht Hsync d.
  destruct (schedule_delay_sync c t Hsd Ht Hsync) as (q & Hq & Eq).
  fold d in Eq. exists q. split; [done|].
  assert (Hd : (0 < d)%Q) by (unfold d; lra).
  assert (E : (inject_Z t + q ==
               d * inject_Z (Qfloor (inject_Z t / d) + 1))%Q).
  { rewrite Eq. unfold spec_mod. rewrite inject_Z_plus. ring. }
  split; [done|].
  unfold spec_mod.
  assert (Ef : Qfloor ((inject_Z t + q) / d) =
               Qfloor (d * inject_Z (Qfloor (inject_Z t / d) + 1) / d)).
  { apply Qfloor_comp. by rewrite E. }
  rewrite Ef, E. apply (spec_mod_multiple d _ Hd).
Qed.

Lemma clock_sync_lands_on_grid_witness :
  ∃ q, schedule_delay sync5 12345 = Js.Num q ∧
       (inject_Z 12345 + q == 15000)%Q.
Proof.
  destruct (clock_sync_lands_on_grid sync5 12345) as (q & Hq & E & _);
    [by_compute..|].
  exists q. split; [exact Hq|]. rewrite E. reflexivity.
Defined.

(** X18. With a [show_duration] of 0 the delay is [NaN] under clock sync
    (the remainder by 0) and 0 without it. *)
Theorem zero_show_duration_delay (c : config) (t : Z) :
  (show_duration c == 0)%Q →
  schedule_delay c t = if clock_sync c then Js.NaN else Js.of_Z 0.
Proof.
  intros E. unfold schedule_delay.
  assert (Hd : Js.mul (Js.of_Z 1000) (Js.Num (show_duration c)) = Js.of_Z 0).
  { unfold Js.mul, Js.of_Z. f_equal. apply Qred_eq_inject. rewrite E. reflexivity. }
  rewrite Hd. by destruct (clock_sync c).
Qed.

Lemma zero_show_duration_delay_witness :
  schedule_delay sync0 12000 = Js.NaN.
Proof.
  exact (zero_show_duration_delay sync0 12000 ltac:(reflexivity)).
Defined.

Lemma Qtrunc_nonpos (q : Q) : (q <= 0)%Q → Js.Qtrunc q = - Qfloor (- q).
Proof.
  destruct q as [n p]. unfold Qle, Js.Qtrunc, Qfloor, Qopp; simpl. intros Hn.
  rewrite <- (Z.opp_involutive n) at 1. rewrite Z.quot_opp_l by done.
  f_equal. apply Z.quot_div_nonneg; lia.
Qed.

Lemma rem_nonpos (x y : Q) :
  (x <= 0)%Q → (0 < y)%Q →
  ∃ r, Js.rem (Js.Num x) (Js.Num y) = Js.Num r ∧ (r == - spec_mod (- x) y)%Q.
Proof.
  intros Hx Hy. unfold Js.rem. rewrite (Qeq_bool_pos _ Hy).
  eexists; split; [reflexivity|].
  rewrite Qred_correct. unfold spec_mod.
  rewrite Qtrunc_nonpos.
  2:{ apply Qle_shift_div_r; [done|]. by rewrite Qmult_0_l. }
  assert (Ef : Qfloor (- (x / y)) = Qfloor (- x / y)).
  { apply Qfloor_comp. unfold Qdiv. ring. }
  rewrite Ef, inject_Z_opp. ring.
Qed.

(** X19. Under clock sync with a clock reading [t <= 0], the remainder
    takes the sign of [t], so the delay is [d + ((- t) mod d)]: at least
    [d] and below [2 d]. *)
Theorem clock_before_epoch_delay (c : config) (t : Z) :
  (0 < show_duration c)%Q → t <= 0 → clock_sync c = true →
  let d := (1000 * show_duration c)%Q in
  ∃ q, schedule_delay c t = Js.Num q ∧
    (q == d + spec_mod (inject_Z (- t)) d)%Q ∧ (d <= q)%Q ∧ (q < 2 * d)%Q.
Proof.
  intros Hsd Ht Hsync d. unfold schedule_delay. rewrite Hsync.
  destruct (mul_1000_pos _ Hsd) as (d' & -> & Hd' & Hpos). fold d in Hd'.
  assert (Ht' : (inject_Z t <= 0)%Q) by (unfold Qle; simpl; lia).
  destruct (rem_nonpos _ _ Ht' Hpos) as (r & Hr & Er).
  unfold Js.of_Z. rewrite Hr. simpl. eexists; split; [reflexivity|].
  assert (Em : (spec_mod (- inject_Z t) d' == spec_mod (inject_Z (- t)) d)%Q).
  { rewrite (spec_mod_comp _ _ _ Hd'). by rewrite inject_Z_opp. }
  assert (Eq : (Qred (d' - r) == d + spec_mod (inject_Z (- t)) d)%Q).
  { rewrite Qred_correct, Er, Em, Hd'. ring. }
  assert (Hd : (0 < d)%Q) by (by rewrite <- Hd').
  pose proof (spec_mod_bounds (inject_Z (- t)) d Hd) as [Hlo Hhi].
  split; [done|]. split; rewrite Eq; lra.
Qed.

Lemma clock_before_epoch_delay_witness :
  ∃ q, schedule_delay sync5 (-2000) = Js.Num q ∧ (5000 <= q)%Q.
Proof.
  destruct (clock_before_epoch_delay sync5 (-2000)) as (q & Hq & _ & Hlo & _);
    [by_compute..|].
  exists q. split; [exact Hq | exact Hlo].
Defined.
